(** * camtest: a command-line camera benchmark (src/main.cpp)

    A shallow embedding of [main.cpp]: the option parser [parseArgs], the
    resolution decoder [parseResolution], the format encoder
    [fourccFromString], the device-identifier derivation, and the benchmark
    loop of [main], followed by the properties the specification states
    about them.

    Conventions.
    - A C++ [int] is a [Z] in the range [INT_MIN .. INT_MAX]; where the
      source computes in [int] the wrap-around [wrap32] is written out.
    - A [std::string] is a [string]; [char] values are [ascii], read as
      unsigned bytes where the source masks them with [& 255].
    - [std::map<std::string, std::string>] is a [gmap string string];
      [args[k] = v] is [<[k := v]> args], [args.count(k)] is whether
      [args !! k] is [Some _].
    - Effects are explicit: the capture device and the steady clock are an
      environment the program reads; what it prints and what it does to the
      capture device is a list of [event]s; how it ends is an [exit]. *)

From Stdlib Require Import ZArith String Ascii List Lia Bool.
From Stdlib Require Import Floats Uint63.
From stdpp Require Import gmap strings list.

Open Scope Z_scope.

(* ===================================================================== *)
(** ** Machine integers *)
(* ===================================================================== *)

Definition INT_MAX : Z := 2147483647.
Definition INT_MIN : Z := -2147483648.

Definition in_int (z : Z) : bool := (INT_MIN <=? z) && (z <=? INT_MAX).

(** Two's complement reduction to 32 bits. *)
Definition wrap32 (z : Z) : Z := (z + 2 ^ 31) mod 2 ^ 32 - 2 ^ 31.

(** [i++] on an [int]. *)
Definition incr (i : Z) : Z := wrap32 (i + 1).

(** [(double) z] for an integer of at most 63 bits. *)
Definition double_of_Z (z : Z) : float :=
  if z <? 0 then PrimFloat.opp (PrimFloat.of_uint63 (Uint63.of_Z (- z)))
  else PrimFloat.of_uint63 (Uint63.of_Z z).

(* ===================================================================== *)
(** ** Characters and the C locale *)
(* ===================================================================== *)

Definition byte_of (c : ascii) : Z := Z.of_N (N_of_ascii c).

(** [isspace] in the "C" locale: space, \t, \n, \v, \f, \r. *)
Definition isspace (c : ascii) : bool :=
  (byte_of c =? 32) || ((9 <=? byte_of c) && (byte_of c <=? 13)).

Definition isdigit (c : ascii) : bool :=
  (48 <=? byte_of c) && (byte_of c <=? 57).

Definition digit_val (c : ascii) : Z := byte_of c - 48.

(* ===================================================================== *)
(** ** Reading a decimal integer

    Both [std::stoi] (through [strtol], base 10) and [operator>>(int&)] on a
    stream in the classic locale read the same field: leading white space,
    an optional sign, then decimal digits up to the first character that is
    not one. They differ in how they report failure. *)
(* ===================================================================== *)

Fixpoint skipws (s : string) : string :=
  match s with
  | String c r => if isspace c then skipws r else s
  | EmptyString => s
  end.

Fixpoint scan_digits (acc : Z) (s : string) : Z * string :=
  match s with
  | String c r =>
      if isdigit c then scan_digits (10 * acc + digit_val c) r else (acc, s)
  | EmptyString => (acc, s)
  end.

(** The digits after the sign; [None] when there is no digit. *)
Definition scan_unsigned (s : string) : option (Z * string) :=
  match s with
  | String c _ => if isdigit c then Some (scan_digits 0 s) else None
  | EmptyString => None
  end.

Definition scan_int (s : string) : option (Z * string) :=
  match skipws s with
  | String c r =>
      if Ascii.eqb c "-" then
        match scan_unsigned r with
        | Some (v, rest) => Some (- v, rest)
        | None => None
        end
      else if Ascii.eqb c "+" then scan_unsigned r
      else scan_unsigned (String c r)
  | EmptyString => None
  end.

(** [std::stoi]: throws [std::invalid_argument] when no conversion could be
    performed and [std::out_of_range] when the value does not fit an [int];
    characters after the number are ignored. *)
Inductive stoi_result :=
| StoiOk (v : Z)
| StoiInvalidArgument
| StoiOutOfRange.

Definition stoi (s : string) : stoi_result :=
  match scan_int s with
  | None => StoiInvalidArgument
  | Some (v, _) => if in_int v then StoiOk v else StoiOutOfRange
  end.

(* ===================================================================== *)
(** ** std::stringstream extraction *)
(* ===================================================================== *)

(** The unread characters and whether the stream is still good ([failbit]
    clear). Once an extraction fails every later one does nothing. *)
Record istream := { buf : string; good : bool }.

Definition stringstream (s : string) : istream := {| buf := s; good := true |}.

Definition setfail (ss : istream) : istream := {| buf := buf ss; good := false |}.

(** [ss >> n] for [int& n]. The stream's sentry skips white space first:
    when nothing is left after it the sentry fails, [failbit] is set and
    [n] is left alone. Otherwise the number is read: when the characters
    there are no number 0 is stored, on overflow the nearest bound, and
    both set [failbit]. A stream that has already failed leaves [n]
    alone. *)
Definition extract_int (ss : istream) (n : Z) : istream * Z :=
  if good ss then
    match skipws (buf ss) with
    | EmptyString => (setfail ss, n)
    | String _ _ =>
        match scan_int (buf ss) with
        | None => (setfail ss, 0)
        | Some (v, rest) =>
            if INT_MAX <? v then (setfail ss, INT_MAX)
            else if v <? INT_MIN then (setfail ss, INT_MIN)
            else ({| buf := rest; good := true |}, v)
        end
    end
  else (ss, n).

(** [ss >> c] for [char& c]: skips white space and reads one character; at
    the end of the input it fails and leaves [c] alone. An uninitialised
    [char] is [None]. *)
Definition extract_char (ss : istream) (c : option ascii) : istream * option ascii :=
  if good ss then
    match skipws (buf ss) with
    | String a r => ({| buf := r; good := true |}, Some a)
    | EmptyString => (setfail ss, c)
    end
  else (ss, c).

(* ===================================================================== *)
(** ** parseResolution (main.cpp, lines 59-66) *)
(* ===================================================================== *)

(** The three [int&] parameters are passed in and returned: the function
    writes them as it goes, also when it ends up returning [false]. *)
Definition parseResolution (res : string) (whf : Z * Z * Z) : bool * (Z * Z * Z) :=
  let '(width, height, fps) := whf in
  let ss := stringstream res in
  let '(ss, width) := extract_int ss width in
  let '(ss, x) := extract_char ss None in
  let '(ss, height) := extract_int ss height in
  let '(ss, at_) := extract_char ss None in
  let '(ss, fps) := extract_int ss fps in
  if good ss then
    (bool_decide (x = Some "x"%char) && bool_decide (at_ = Some "@"%char),
     (width, height, fps))
  else (false, (width, height, fps)).

(* ===================================================================== *)
(** ** fourccFromString (main.cpp, lines 20-23) *)
(* ===================================================================== *)

(** Modelled from the spec: [cv::VideoWriter::fourcc] belongs to the capture
    library, not to this repository. It is the library's packed
    4-character code: the four characters as bytes, least significant
    first, in an [int]. *)
Definition fourcc (c1 c2 c3 c4 : ascii) : Z :=
  wrap32 (Z.land (byte_of c1) 255
          + Z.shiftl (Z.land (byte_of c2) 255) 8
          + Z.shiftl (Z.land (byte_of c3) 255) 16
          + Z.shiftl (Z.land (byte_of c4) 255) 24).

(** [format[i]]; at [i = format.length()] a [std::string] yields the
    terminating NUL. *)
Definition char_at (s : string) (i : nat) : ascii :=
  match String.get i s with
  | Some c => c
  | None => Ascii.zero
  end.

Definition fourccFromString (format : string) : Z :=
  if negb (String.length format =? 4)%nat then 0
  else fourcc (char_at format 0) (char_at format 1) (char_at format 2) (char_at format 3).

(* ===================================================================== *)
(** ** parseArgs (main.cpp, lines 25-56) *)
(* ===================================================================== *)

(** What the parser hands back: the map, or [PastEnd] when [argv[++i]] was
    evaluated with [i + 1 = argc], past the last token (the slot holds the
    null pointer that ends [argv], from which no [std::string] can be
    built). *)
Inductive parse_result :=
| Parsed (args : gmap string string)
| PastEnd.

Definition is_help (key : string) : bool :=
  (key =? "-h")%string || (key =? "--help")%string.

(** The [if / else if] chain of lines 36-53: the map key a value-taking
    option stores under, in the order the source tests them. *)
Definition value_option (key : string) : option string :=
  if (key =? "-d")%string || (key =? "--device")%string then Some "device"%string
  else if (key =? "-w")%string || (key =? "--width")%string then Some "width"%string
  else if (key =? "-h")%string || (key =? "--height")%string then Some "height"%string
  else if (key =? "-f")%string || (key =? "--format")%string then Some "format"%string
  else if (key =? "-r")%string || (key =? "--resolution")%string then Some "resolution"%string
  else if (key =? "-s")%string || (key =? "--fps")%string then Some "fps"%string
  else None.

(** The loop body from index [i] on: [toks] is [argv[i .. argc-1]]. *)
Fixpoint parseArgs_from (toks : list string) (args : gmap string string) : parse_result :=
  match toks with
  | [] => Parsed args
  | key :: rest =>
      if is_help key then Parsed (<["help"%string := "1"%string]> args)
      else
        match value_option key with
        | Some name =>
            match rest with
            | value :: rest' => parseArgs_from rest' (<[name := value]> args)
            | [] => PastEnd
            end
        | None => parseArgs_from rest args
        end
  end.

(** [argv[0]] is the program name; the loop starts at [i = 1]. *)
Definition parseArgs (argv : list string) : parse_result :=
  parseArgs_from (tail argv) ∅.

(* ===================================================================== *)
(** ** The device identifier (main.cpp, lines 76-81) *)
(* ===================================================================== *)

(** [s.substr(pos)] for [pos <= s.length()]. *)
Definition substr (pos : nat) (s : string) : string :=
  String.substring pos (String.length s - pos) s.

(** [device_str.rfind("/dev/video", 0) == 0]: the string starts with the
    prefix. *)
Definition device_of (device_str : string) : stoi_result :=
  if String.prefix "/dev/video" device_str then stoi (substr 10 device_str)
  else stoi device_str.

(* ===================================================================== *)
(** ** What the program does and how it ends *)
(* ===================================================================== *)

Inductive cap_prop :=
| CAP_PROP_FRAME_WIDTH
| CAP_PROP_FRAME_HEIGHT
| CAP_PROP_FOURCC
| CAP_PROP_FPS.

(** Lines written to [std::cout] and [std::cerr], and calls on the capture
    device, in program order. *)
Inductive event :=
| Usage (program : string)                        (* printHelp(argv[0]) *)
| InvalidResolution                               (* cerr, line 89 *)
| InvalidFormat (format : string)                 (* cerr, line 96 *)
| VideoCapture (device : Z)                       (* cap(device, CAP_V4L2) *)
| OpenFailed (device : Z)                         (* cerr, line 102 *)
| CapSet (prop : cap_prop) (value : Z)            (* cap.set(prop, value) *)
| Testing (width height fps : Z) (format : string) (* cout, line 111 *)
| CaptureFailed                                   (* cerr, line 124 *)
| CurrentFPS (frames : Z)                         (* cout, line 136 *)
| Captured (total elapsed : Z) (avg_fps : float)  (* cout, lines 143-145 *)
| Release.                                        (* cap.release() *)

Inductive exit :=
| Exit (code : Z)   (* return from main *)
| Terminate         (* an uncaught exception of std::stoi *)
| Undefined         (* parseArgs read argv[argc] *)
| Blocked.          (* still inside cap.read when the recorded reads end *)

(* ===================================================================== *)
(** ** The benchmark loop (main.cpp, lines 114-148) *)
(* ===================================================================== *)

Definition test_duration_sec : Z := 5.

(** [duration_cast<seconds>(d).count()] for a duration [d] in the clock's
    nanoseconds: integer division truncating toward zero. *)
Definition seconds (d : Z) : Z := Z.quot d 1000000000.

(** One [cap.read(frame)]: a frame, with the value [steady_clock::now()]
    returns right after it (nanoseconds), or a failure. *)
Inductive read_result :=
| Frame (now : Z)
| NoFrame.

Record counters := {
  total_frames : Z;
  frames_last_second : Z;
  last_report : Z
}.

Inductive loop_status := Running | Done | Failed.

(** One pass through the body of [while (true)]. *)
Definition iteration (start_time : Z) (r : read_result) (c : counters)
  : counters * list event * loop_status :=
  match r with
  | NoFrame => (c, [CaptureFailed], Failed)
  | Frame now =>
      let total := incr (total_frames c) in
      let last_second := incr (frames_last_second c) in
      let total_elapsed := seconds (now - start_time) in
      let elapsed_since_report := seconds (now - last_report c) in
      let '(c1, out1) :=
        if 1 <=? elapsed_since_report then
          ({| total_frames := total; frames_last_second := 0; last_report := now |},
           [CurrentFPS last_second])
        else
          ({| total_frames := total; frames_last_second := last_second;
              last_report := last_report c |}, [])
      in
      if test_duration_sec <=? total_elapsed then
        let avg_fps := PrimFloat.div (double_of_Z total) (double_of_Z total_elapsed) in
        (c1, out1 ++ [Captured total total_elapsed avg_fps], Done)
      else (c1, out1, Running)
  end.

(** The loop over the recorded reads. When they run out the loop has not
    ended: it is [Running], waiting in [cap.read]. *)
Fixpoint bench_loop (start_time : Z) (reads : list read_result) (c : counters)
  : counters * list event * loop_status :=
  match reads with
  | [] => (c, [], Running)
  | r :: rest =>
      match iteration start_time r c with
      | (c1, out, Running) =>
          let '(c2, out2, st) := bench_loop start_time rest c1 in
          (c2, out ++ out2, st)
      | stopped => stopped
      end
  end.

Definition init_counters (start_time : Z) : counters :=
  {| total_frames := 0; frames_last_second := 0; last_report := start_time |}.

(* ===================================================================== *)
(** ** main (main.cpp, lines 68-152) *)
(* ===================================================================== *)

(** What the program reads from outside: whether a device opens, the
    steady clock at line 118, and the outcome of each [cap.read]. *)
Record env := {
  opens : Z -> bool;
  start_time : Z;
  reads : list read_result
}.

Definition main (e : env) (argv : list string) : list event * exit :=
  match parseArgs argv with
  | PastEnd => ([], Undefined)
  | Parsed args =>
      if bool_decide (is_Some (args !! "help"%string)) then
        ([Usage (hd EmptyString argv)], Exit 0)
      else
        let device_str := default "0"%string (args !! "device"%string) in
        match device_of device_str with
        | StoiOk device =>
            let format := default "MJPG"%string (args !! "format"%string) in
            let '(ok, (width, height, fps)) :=
              match args !! "resolution"%string with
              | Some res => parseResolution res (640, 480, 30)
              | None => (true, (640, 480, 30))
              end in
            if negb ok then ([InvalidResolution], Exit 1)
            else
              let code := fourccFromString format in
              if code =? 0 then ([InvalidFormat format], Exit 1)
              else if negb (opens e device) then
                ([VideoCapture device; OpenFailed device], Exit 1)
              else
                let setup :=
                  [VideoCapture device;
                   CapSet CAP_PROP_FRAME_WIDTH width;
                   CapSet CAP_PROP_FRAME_HEIGHT height;
                   CapSet CAP_PROP_FOURCC code;
                   CapSet CAP_PROP_FPS fps;
                   Testing width height fps format] in
                match bench_loop (start_time e) (reads e) (init_counters (start_time e)) with
                | (_, out, Running) => (setup ++ out, Blocked)
                | (_, out, _) => (setup ++ out ++ [Release], Exit 0)
                end
        | _ => ([], Terminate)
        end
  end.

(* ===================================================================== *)
(** ** The specification's vocabulary

    What the specification's sentences speak of, written down independently
    of the functions above, to compare them with. *)
(* ===================================================================== *)

(** The option tokens that take a value, with the map key each stores
    under. The short [-h] is not one of them: see [is_help]. *)
Definition value_tokens : list (string * string) :=
  [("-d", "device"); ("--device", "device");
   ("-w", "width"); ("--width", "width");
   ("--height", "height");
   ("-f", "format"); ("--format", "format");
   ("-r", "resolution"); ("--resolution", "resolution");
   ("-s", "fps"); ("--fps", "fps")]%string.

Fixpoint all_chars (p : ascii -> bool) (s : string) : bool :=
  match s with
  | EmptyString => true
  | String c r => p c && all_chars p r
  end.

(** The number a string of decimal digits denotes, by position. *)
Fixpoint decimal_value (ds : string) : Z :=
  match ds with
  | EmptyString => 0
  | String c r => digit_val c * 10 ^ Z.of_nat (String.length r) + decimal_value r
  end.

Definition is_digits (ds : string) : Prop :=
  ds <> EmptyString /\ all_chars isdigit ds = true.

(** [<int>]: decimal digits with an optional sign. *)
Inductive int_literal : string -> Z -> Prop :=
| literal_plain ds : is_digits ds -> int_literal ds (decimal_value ds)
| literal_plus ds : is_digits ds -> int_literal (String "+" ds) (decimal_value ds)
| literal_minus ds : is_digits ds -> int_literal (String "-" ds) (- decimal_value ds).

(** A number ends at the first character that is not a digit. *)
Definition next_not_digit (rest : string) : Prop :=
  match rest with
  | String c _ => isdigit c = false
  | EmptyString => True
  end.

(** "The integer parses": [s] is white space, then an integer literal of an
    [int] value [v], then [rest]. *)
Definition int_field (s : string) (v : Z) (rest : string) : Prop :=
  exists ws lit,
    s = (ws ++ lit ++ rest)%string
    /\ all_chars isspace ws = true
    /\ int_literal lit v
    /\ INT_MIN <= v <= INT_MAX
    /\ next_not_digit rest.

(** "The separator character is literally [c]": [s] is white space, then
    [c], then [rest]. *)
Definition char_field (s : string) (c : ascii) (rest : string) : Prop :=
  exists ws,
    s = (ws ++ String c rest)%string
    /\ all_chars isspace ws = true
    /\ isspace c = false.

(** The shape [<int>x<int>@<int>] as the stream reads it, with the three
    integers it holds: white space may come before each integer and each
    separator, and what follows the third integer is not looked at. *)
Definition resolution_shape (s : string) (w h f : Z) : Prop :=
  exists r1 r2 r3 r4 r5,
    int_field s w r1
    /\ char_field r1 "x" r2
    /\ int_field r2 h r3
    /\ char_field r3 "@" r4
    /\ int_field r4 f r5.

(** The shape [<int>x<int>@<int>] to the letter: the whole string is an
    integer, [x], an integer, [@], an integer, each fitting an [int]. *)
Definition exact_shape (s : string) (w h f : Z) : Prop :=
  exists lw lh lf,
    s = (lw ++ String "x" (lh ++ String "@" lf))%string
    /\ int_literal lw w /\ INT_MIN <= w <= INT_MAX
    /\ int_literal lh h /\ INT_MIN <= h <= INT_MAX
    /\ int_literal lf f /\ INT_MIN <= f <= INT_MAX.

(** A recogniser for [exact_shape]. An integer literal at the very start
    of [s], and what comes after it: *)
Definition leading_literal (s : string) : option (Z * string) :=
  match s with
  | String c _ => if isspace c then None else scan_int s
  | EmptyString => None
  end.

Definition exact_shapeb (s : string) : bool :=
  match leading_literal s with
  | Some (w, String c1 r1) =>
      match leading_literal r1 with
      | Some (h, String c2 r2) =>
          match leading_literal r2 with
          | Some (f, EmptyString) =>
              Ascii.eqb c1 "x" && Ascii.eqb c2 "@" && in_int w && in_int h && in_int f
          | _ => false
          end
      | _ => false
      end
  | _ => false
  end.

(** The string of four NUL characters. *)
Definition nul4 : string :=
  String Ascii.zero (String Ascii.zero (String Ascii.zero (String Ascii.zero EmptyString))).

(** The per-second reports among the events: each goes with one reset of
    the per-interval counter. *)
Definition is_report (ev : event) : bool :=
  match ev with
  | CurrentFPS _ => true
  | _ => false
  end.

Definition reports (out : list event) : Z := Z.of_nat (length (List.filter is_report out)).

Definition is_summary (ev : event) : bool :=
  match ev with
  | Captured _ _ _ => true
  | _ => false
  end.

Definition is_failure (ev : event) : bool :=
  match ev with
  | CaptureFailed => true
  | _ => false
  end.

(** Events that neither end the loop nor report its end. *)
Definition quiet (ev : event) : bool := negb (is_summary ev) && negb (is_failure ev).

(* ===================================================================== *)
(** ** Printing an integer

    [std::cout << n] for an [int] in the default format: the decimal
    digits, most significant first, after a minus sign when [n] is
    negative. The program prints the device, the resolution and the
    counters this way (lines 102, 111, 136, 143). *)
(* ===================================================================== *)

Definition digit_char (d : Z) : ascii := ascii_of_N (Z.to_N (48 + d)).

(** The digits of [n >= 0] in front of [acc]; [fuel] bounds the number of
    digits. *)
Fixpoint show_digits (fuel : nat) (n : Z) (acc : string) : string :=
  match fuel with
  | O => acc
  | S fuel' =>
      let acc' := String (digit_char (n mod 10)) acc in
      if n <? 10 then acc' else show_digits fuel' (n / 10) acc'
  end.

Definition show_nat (n : Z) : string :=
  show_digits (S (Z.to_nat (Z.log2 n))) n EmptyString.

Definition show_int (n : Z) : string :=
  if n <? 0 then String "-" (show_nat (- n)) else show_nat n.

(** A device argument that denotes the identifier [v]: an integer field,
    bare or after the prefix [/dev/video]; what follows the digits is not
    looked at. *)
Definition device_shape (s : string) (v : Z) : Prop :=
  exists t rest,
    (s = t \/ s = ("/dev/video" ++ t)%string) /\ int_field t v rest.

(** The keys [parseArgs] stores under. *)
Definition option_keys : list string :=
  ["help"; "device"; "width"; "height"; "format"; "resolution"; "fps"]%string.

(** The keys [main] reads from the parsed map. *)
Definition keys_read_by_main : list string :=
  ["help"; "device"; "format"; "resolution"]%string.

(** The frames the per-second reports account for. *)
Fixpoint reported (out : list event) : Z :=
  match out with
  | [] => 0
  | CurrentFPS n :: out' => n + reported out'
  | _ :: out' => reported out'
  end.

(** What the loop prints: reports, the summary, the read failure. *)
Definition is_loop_event (ev : event) : bool :=
  match ev with
  | CurrentFPS _ | Captured _ _ _ | CaptureFailed => true
  | _ => false
  end.

(** The configuration [main] applies to an opened device, in order. *)
Definition setup_events (device width height fps : Z) (format : string) : list event :=
  [VideoCapture device;
   CapSet CAP_PROP_FRAME_WIDTH width;
   CapSet CAP_PROP_FRAME_HEIGHT height;
   CapSet CAP_PROP_FOURCC (fourccFromString format);
   CapSet CAP_PROP_FPS fps;
   Testing width height fps format].

(** A few runs of the definitions. *)
Example parseResolution_640x480_60 :
  parseResolution "640x480@60" (640, 480, 30) = (true, (640, 480, 60)).
Proof. reflexivity. Qed.

Example parseResolution_wrong_separator :
  parseResolution "800y600@25" (640, 480, 30) = (false, (800, 600, 25)).
Proof. reflexivity. Qed.

(** At the end of the input an integer is left as it was; where the
    characters are no number, 0 is stored. *)
Example parseResolution_empty :
  parseResolution EmptyString (640, 480, 30) = (false, (640, 480, 30)).
Proof. reflexivity. Qed.

Example parseResolution_no_height :
  parseResolution "800x" (640, 480, 30) = (false, (800, 480, 30)).
Proof. reflexivity. Qed.

Example parseResolution_not_a_number :
  parseResolution "800xtall@25" (640, 480, 30) = (false, (800, 0, 30)).
Proof. reflexivity. Qed.

Example parseResolution_truncated :
  parseResolution "800x600" (640, 480, 30) = (false, (800, 600, 30)).
Proof. reflexivity. Qed.

(** White space before a field is skipped and what follows the frame rate
    is never read. *)
Example parseResolution_spaces_and_suffix :
  parseResolution " 640 x 480 @ 60fps" (640, 480, 30) = (true, (640, 480, 60)).
Proof. reflexivity. Qed.

(** A number that does not fit an [int] fails the extraction. *)
Example parseResolution_overflow :
  parseResolution "640x480@4294967296" (640, 480, 30) = (false, (640, 480, INT_MAX)).
Proof. reflexivity. Qed.

Example fourcc_MJPG : fourccFromString "MJPG" = 1196444237.
Proof. reflexivity. Qed.

Example device_of_path : device_of "/dev/video3" = StoiOk 3.
Proof. reflexivity. Qed.

(* ===================================================================== *)
(** * Properties of the option parser *)
(* ===================================================================== *)

Section ParseArgs.

Implicit Types (key name value : string) (toks rest : list string).
Implicit Types (args : gmap string string).

(** The help test comes first in the loop body (line 30). *)
Lemma parseArgs_from_help key rest args :
  is_help key = true ->
  parseArgs_from (key :: rest) args = Parsed (<["help"%string := "1"%string]> args).
Proof. intros H. simpl. now rewrite H. Qed.

Lemma is_help_iff key :
  is_help key = true <-> key = "-h"%string \/ key = "--help"%string.
Proof.
  unfold is_help. rewrite orb_true_iff, !String.eqb_eq. tauto.
Qed.

(** A value-taking option followed by a token stores that token. *)
Lemma parseArgs_from_value key name value rest args :
  is_help key = false ->
  value_option key = Some name ->
  parseArgs_from (key :: value :: rest) args
  = parseArgs_from rest (<[name := value]> args).
Proof. intros Hh Hv. simpl. now rewrite Hh, Hv. Qed.

(** A value-taking option with nothing after it. *)
Lemma parseArgs_from_last key name args :
  is_help key = false ->
  value_option key = Some name ->
  parseArgs_from [key] args = PastEnd.
Proof. intros Hh Hv. simpl. now rewrite Hh, Hv. Qed.

Lemma parseArgs_from_other key rest args :
  is_help key = false ->
  value_option key = None ->
  parseArgs_from (key :: rest) args = parseArgs_from rest args.
Proof. intros Hh Hv. simpl. now rewrite Hh, Hv. Qed.

(** The only key that stores under "height" without being a help token is
    the long form: the test [key == "-h"] of line 42 never decides. *)
Lemma value_option_height key :
  is_help key = false ->
  value_option key = Some "height"%string ->
  key = "--height"%string.
Proof.
  unfold is_help, value_option. intros Hh.
  apply orb_false_iff in Hh as [Hh _]. rewrite Hh. simpl.
  repeat match goal with
         | |- context [(?a =? ?b)%string] =>
             destruct (String.eqb_spec a b); simpl; try discriminate; try congruence
         end.
Qed.

(** Induction over token lists that follows the parser: it steps by one
    token or by two. *)
Lemma token_list_ind (P : list string -> Prop) :
  P [] ->
  (forall key, P [key]) ->
  (forall key value rest, P rest -> P (value :: rest) -> P (key :: value :: rest)) ->
  forall toks, P toks.
Proof.
  intros Hnil Hone Hstep toks.
  assert (H : P toks /\ forall key, P (key :: toks)); [| apply H].
  induction toks as [| t toks [IH1 IH2]]; split; auto.
Qed.

(** Where a stored height comes from: it was in the map already, or the
    tokens hold [--height] followed by the value. *)
Lemma height_origin toks :
  forall args args' v,
    parseArgs_from toks args = Parsed args' ->
    args' !! "height"%string = Some v ->
    args !! "height"%string = Some v
    \/ exists pre post, toks = pre ++ "--height"%string :: v :: post.
Proof.
  induction toks as [| key | key value rest IH1 IH2] using token_list_ind;
    intros args args' v Hrun Hlook.
  - simpl in Hrun. injection Hrun as <-. now left.
  - simpl in Hrun. destruct (is_help key).
    + injection Hrun as <-. rewrite lookup_insert_ne in Hlook by done. now left.
    + destruct (value_option key); [discriminate |].
      injection Hrun as <-. now left.
  - destruct (is_help key) eqn:Hh.
    + rewrite parseArgs_from_help in Hrun by done. injection Hrun as <-.
      rewrite lookup_insert_ne in Hlook by done. now left.
    + destruct (value_option key) as [name |] eqn:Hv.
      * rewrite (parseArgs_from_value _ name) in Hrun by done.
        destruct (IH1 _ _ _ Hrun Hlook) as [Hin | (pre & post & ->)].
        -- destruct (decide (name = "height"%string)) as [-> | Hne].
           ++ rewrite lookup_insert_eq in Hin. injection Hin as ->.
              apply value_option_height in Hv as ->; [| done].
              right. now exists [], rest.
           ++ rewrite lookup_insert_ne in Hin by done. now left.
        -- right. now exists (key :: value :: pre), post.
      * rewrite parseArgs_from_other in Hrun by done.
        destruct (IH2 _ _ _ Hrun Hlook) as [Hin | (pre & post & Heq)].
        -- now left.
        -- right. exists (key :: pre), post. now rewrite Heq.
Qed.

End ParseArgs.

Lemma value_tokens_spec key name :
  In (key, name) value_tokens ->
  is_help key = false /\ value_option key = Some name.
Proof.
  unfold value_tokens. simpl.
  intros H. repeat destruct H as [H | H]; try (injection H as <- <-; now split).
  contradiction.
Qed.

Lemma main_help e argv args :
  parseArgs argv = Parsed args ->
  is_Some (args !! "help"%string) ->
  main e argv = ([Usage (hd EmptyString argv)], Exit 0).
Proof.
  intros Hp Hh. unfold main. rewrite Hp.
  now rewrite bool_decide_eq_true_2.
Qed.

(** C4: the code does not do what the claim says of the short token: with
    [-h] as the first option, whatever follows, the help test of line 30
    takes it before the height branch of line 42 is reached; the parser
    returns the help flag alone, the token after [-h] is not consumed as a
    height, and [main] prints the usage text and returns 0. The usage text
    (line 13) and the test [key == "-h"] of line 42 say that [-h] was meant
    to set the height. *)
Theorem short_h_is_not_height :
  forall e program value rest,
    parseArgs (program :: "-h"%string :: value :: rest)
    = Parsed (<["help"%string := "1"%string]> ∅)
    /\ (<["help"%string := "1"%string]> (∅ : gmap string string)) !! "height"%string = None
    /\ main e (program :: "-h"%string :: value :: rest) = ([Usage program], Exit 0).
Proof.
  intros e program value rest.
  assert (Hp : parseArgs (program :: "-h"%string :: value :: rest)
               = Parsed (<["help"%string := "1"%string]> ∅)) by reflexivity.
  split; [exact Hp |]. split; [now rewrite lookup_insert_ne |].
  rewrite (main_help e _ _ Hp); [reflexivity |].
  rewrite lookup_insert_eq. eauto.
Qed.

(** C5, as the specification states it, fails: options read before the
    help token stay in the map, and a help token that is taken as the value
    of an option is not seen as help at all. *)
Lemma help_is_not_the_only_key :
  parseArgs ["camtest"; "-w"; "800"; "--help"]%string
  = Parsed (<["help"%string := "1"%string]> (<["width"%string := "800"%string]> ∅))
  /\ (<["help"%string := "1"%string]>
        (<["width"%string := "800"%string]> (∅ : gmap string string)))
       !! "width"%string = Some "800"%string
  /\ parseArgs ["camtest"; "-d"; "--help"]%string
     = Parsed (<["device"%string := "--help"%string]> ∅).
Proof.
  split; [reflexivity |]. split; [| reflexivity].
  rewrite lookup_insert_ne by done. now rewrite lookup_insert_eq.
Qed.

(** C5, amended: wherever the parser meets a help token as an option it
    returns at once with the help flag added to what it has stored so far,
    whatever tokens follow; when the help token is the first argument the
    map holds the help flag only, and the program prints the usage text and
    exits with code 0 whatever else is on the command line; the same exit
    follows whenever the parsed map holds the help flag. *)
Theorem help_short_circuits :
  (forall key rest args,
      key = "-h"%string \/ key = "--help"%string ->
      parseArgs_from (key :: rest) args
      = Parsed (<["help"%string := "1"%string]> args))
  /\ (forall e program key rest,
        key = "-h"%string \/ key = "--help"%string ->
        parseArgs (program :: key :: rest) = Parsed {["help"%string := "1"%string]}
        /\ main e (program :: key :: rest) = ([Usage program], Exit 0))
  /\ (forall e argv args,
        parseArgs argv = Parsed args ->
        is_Some (args !! "help"%string) ->
        main e argv = ([Usage (hd EmptyString argv)], Exit 0)).
Proof.
  split; [| split].
  - intros key rest args Hk. apply parseArgs_from_help. now apply is_help_iff.
  - intros e program key rest Hk.
    assert (Hp : parseArgs (program :: key :: rest)
                 = Parsed {["help"%string := "1"%string]}).
    { unfold parseArgs. simpl tail. rewrite parseArgs_from_help.
      - reflexivity.
      - now apply is_help_iff. }
    split; [exact Hp |].
    rewrite (main_help e _ _ Hp); [reflexivity |].
    rewrite lookup_singleton_eq. eauto.
  - intros e argv args. apply main_help.
Qed.

Lemma help_short_circuits_witness :
  main {| opens := fun _ => true; start_time := 0; reads := [] |}
       ["camtest"; "--help"; "-r"; "bogus"; "-f"]%string
  = ([Usage "camtest"], Exit 0).
Proof.
  apply (proj1 (proj2 help_short_circuits)).
  right. reflexivity.
Defined.

(** C9, as the specification states it, fails for the short token [-h]: it
    takes no value, and as the last token it ends the parse without any
    read past the end. *)
Lemma short_h_takes_no_value :
  parseArgs ["camtest"; "-h"]%string
  = Parsed (<["help"%string := "1"%string]> ∅)
  /\ parseArgs ["camtest"; "-h"; "720"; "-s"; "15"]%string
     = Parsed (<["help"%string := "1"%string]> ∅).
Proof. split; reflexivity. Qed.

(** C9, amended: each of the value-taking tokens [-d], [--device], [-w],
    [--width], [--height], [-f], [--format], [-r], [--resolution], [-s],
    [--fps], met as an option, takes the token after it as its value
    whatever that token is; when it is the last token the parser reads
    [argv] past its last token, and [main] has no defined outcome. *)
Theorem value_option_consumes_next :
  forall key name,
    In (key, name) value_tokens ->
    (forall value rest args,
        parseArgs_from (key :: value :: rest) args
        = parseArgs_from rest (<[name := value]> args))
    /\ (forall args, parseArgs_from [key] args = PastEnd)
    /\ (forall e program,
          parseArgs [program; key] = PastEnd
          /\ main e [program; key] = ([], Undefined)).
Proof.
  intros key name Hin.
  destruct (value_tokens_spec _ _ Hin) as [Hh Hv].
  split; [| split].
  - intros. now apply parseArgs_from_value.
  - intros. now apply (parseArgs_from_last key name).
  - intros e program.
    assert (Hp : parseArgs [program; key] = PastEnd)
      by (unfold parseArgs; simpl tail; now apply (parseArgs_from_last key name)).
    split; [exact Hp |]. unfold main. now rewrite Hp.
Qed.

Lemma value_option_consumes_next_witness :
  parseArgs_from ["-s"; "--help"]%string ∅
  = parseArgs_from [] (<["fps"%string := "--help"%string]> ∅)
  /\ parseArgs ["camtest"; "-s"]%string = PastEnd.
Proof.
  assert (Hin : In ("-s", "fps")%string value_tokens)
    by (unfold value_tokens; simpl; tauto).
  split.
  - apply (proj1 (value_option_consumes_next _ _ Hin)).
  - apply (proj2 (proj2 (value_option_consumes_next _ _ Hin))
             {| opens := fun _ => true; start_time := 0; reads := [] |}).
Defined.

(* ===================================================================== *)
(** * Reading integers: the scanner against the grammar *)
(* ===================================================================== *)

Section Scanning.

Implicit Types (s ws ds lit rest : string) (c : ascii) (v acc : Z).

Lemma append_cons c s1 s2 : (String c s1 ++ s2)%string = String c (s1 ++ s2).
Proof. reflexivity. Qed.

Lemma append_nil_l s : (EmptyString ++ s)%string = s.
Proof. reflexivity. Qed.

Lemma append_nil_r s : (s ++ EmptyString)%string = s.
Proof. induction s; rewrite ?append_cons, ?append_nil_l; congruence. Qed.

Ltac push_append := rewrite ?append_cons, ?append_nil_l.

Lemma digit_not_space c : isdigit c = true -> isspace c = false.
Proof.
  unfold isdigit, isspace. intros H.
  apply andb_true_iff in H as [H1 H2].
  apply Z.leb_le in H1. apply Z.leb_le in H2.
  apply orb_false_iff. split.
  - apply Z.eqb_neq. lia.
  - apply andb_false_iff. right. apply Z.leb_gt. lia.
Qed.

Lemma digit_val_range c : isdigit c = true -> 0 <= digit_val c <= 9.
Proof.
  unfold isdigit, digit_val. intros H.
  apply andb_true_iff in H as [H1 H2].
  apply Z.leb_le in H1. apply Z.leb_le in H2. lia.
Qed.

Lemma decimal_value_nonneg ds :
  all_chars isdigit ds = true -> 0 <= decimal_value ds.
Proof.
  induction ds as [| c r IH]; simpl; [lia |].
  intros H. apply andb_true_iff in H as [Hc Hr].
  pose proof (digit_val_range c Hc). specialize (IH Hr).
  assert (0 < 10 ^ Z.of_nat (String.length r)) by (apply Z.pow_pos_nonneg; lia).
  nia.
Qed.

(** White space is skipped up to the first character that is none. *)
Lemma skipws_app ws s :
  all_chars isspace ws = true ->
  skipws (ws ++ s) = skipws s.
Proof.
  induction ws as [| c r IH]; push_append; [reflexivity |].
  simpl. intros H. apply andb_true_iff in H as [Hc Hr]. rewrite Hc. auto.
Qed.

Lemma skipws_cons c s : isspace c = false -> skipws (String c s) = String c s.
Proof. intros H. simpl. now rewrite H. Qed.

Lemma skipws_split s :
  exists ws,
    s = (ws ++ skipws s)%string
    /\ all_chars isspace ws = true
    /\ match skipws s with
       | String c _ => isspace c = false
       | EmptyString => True
       end.
Proof.
  induction s as [| c r (ws & Heq & Hws & Hhd)].
  - now exists EmptyString.
  - simpl. destruct (isspace c) eqn:Hc.
    + exists (String c ws). push_append. simpl. rewrite Hc, Hws. now rewrite <- Heq.
    + exists EmptyString. push_append. now rewrite Hc.
Qed.

(** The digit loop computes the positional value. *)
Lemma scan_digits_app ds : forall acc rest,
  all_chars isdigit ds = true ->
  next_not_digit rest ->
  scan_digits acc (ds ++ rest)
  = (acc * 10 ^ Z.of_nat (String.length ds) + decimal_value ds, rest).
Proof.
  induction ds as [| c r IH]; intros acc rest Hds Hrest.
  - push_append. cbn [String.length decimal_value Z.of_nat].
    rewrite Z.pow_0_r, Z.mul_1_r, Z.add_0_r.
    destruct rest as [| c r]; simpl in *; [reflexivity | now rewrite Hrest].
  - simpl in Hds. apply andb_true_iff in Hds as [Hc Hr].
    push_append. cbn [scan_digits]. rewrite Hc, IH by assumption.
    f_equal. cbn [String.length decimal_value].
    rewrite Nat2Z.inj_succ, Z.pow_succ_r by lia. lia.
Qed.

Lemma scan_digits_split s : forall acc v rest,
  scan_digits acc s = (v, rest) ->
  exists ds,
    s = (ds ++ rest)%string
    /\ all_chars isdigit ds = true
    /\ v = acc * 10 ^ Z.of_nat (String.length ds) + decimal_value ds
    /\ next_not_digit rest.
Proof.
  induction s as [| c r IH]; intros acc v rest H.
  - simpl in H. injection H as <- <-. exists EmptyString. simpl.
    repeat split; lia.
  - simpl in H. destruct (isdigit c) eqn:Hc.
    + destruct (IH _ _ _ H) as (ds & -> & Hds & -> & Hrest).
      exists (String c ds). push_append. cbn [all_chars String.length decimal_value].
      rewrite Hc, Hds. repeat split; auto.
      rewrite Nat2Z.inj_succ, Z.pow_succ_r by lia. lia.
    + injection H as <- <-. exists EmptyString. push_append. simpl.
      repeat split; auto; lia.
Qed.

Lemma scan_unsigned_iff s v rest :
  scan_unsigned s = Some (v, rest)
  <-> exists ds,
      is_digits ds /\ s = (ds ++ rest)%string
      /\ v = decimal_value ds /\ next_not_digit rest.
Proof.
  split.
  - unfold scan_unsigned. destruct s as [| c r]; [discriminate |].
    destruct (isdigit c) eqn:Hc; [| discriminate].
    intros H.
    assert (H' : scan_digits 0 (String c r) = (v, rest)) by congruence.
    destruct (scan_digits_split _ _ _ _ H') as (ds & Heq & Hds & -> & Hrest).
    exists ds. split; [split; [| exact Hds] | repeat split; auto; lia].
    intros ->. rewrite append_nil_l in Heq. subst rest. simpl in Hrest. congruence.
  - intros (ds & [Hne Hds] & -> & -> & Hrest).
    destruct ds as [| c r]; [congruence |].
    unfold scan_unsigned. rewrite append_cons.
    pose proof Hds as Hds'. simpl in Hds'. apply andb_true_iff in Hds' as [Hc _].
    rewrite Hc. f_equal. rewrite <- append_cons.
    rewrite scan_digits_app by assumption. f_equal; lia.
Qed.

Lemma is_digits_head ds :
  is_digits ds -> exists c r, ds = String c r /\ isdigit c = true.
Proof.
  intros [Hne Hds]. destruct ds as [| c r]; [congruence |].
  simpl in Hds. apply andb_true_iff in Hds as [Hc _]. eauto.
Qed.

Lemma digit_not_sign c :
  isdigit c = true -> Ascii.eqb c "-" = false /\ Ascii.eqb c "+" = false.
Proof.
  intros H. split; apply Ascii.eqb_neq; intros ->; discriminate.
Qed.

(** The scanner reads exactly the integer fields of the grammar. *)
Lemma scan_int_iff s v rest :
  scan_int s = Some (v, rest)
  <-> exists ws lit,
      s = (ws ++ lit ++ rest)%string
      /\ all_chars isspace ws = true
      /\ int_literal lit v
      /\ next_not_digit rest.
Proof.
  split.
  - unfold scan_int. destruct (skipws_split s) as (ws & Heq & Hws & Hhd).
    destruct (skipws s) as [| c r]; [discriminate |].
    destruct (Ascii.eqb_spec c "-") as [-> | Hm].
    + destruct (scan_unsigned r) as [[u rest'] |] eqn:Hu; [| discriminate].
      intros H. injection H as <- <-.
      apply scan_unsigned_iff in Hu as (ds & Hds & -> & -> & Hrest).
      exists ws, (String "-" ds). repeat split; auto. now constructor.
    + destruct (Ascii.eqb_spec c "+") as [-> | Hp].
      * intros Hu.
        apply scan_unsigned_iff in Hu as (ds & Hds & -> & -> & Hrest).
        exists ws, (String "+" ds). repeat split; auto. now constructor.
      * intros Hu.
        apply scan_unsigned_iff in Hu as (ds & Hds & Hr & -> & Hrest).
        exists ws, ds. rewrite <- Hr. repeat split; auto. now constructor.
  - intros (ws & lit & -> & Hws & Hlit & Hrest).
    unfold scan_int. rewrite skipws_app by assumption.
    destruct Hlit as [ds Hds | ds Hds | ds Hds].
    + destruct (is_digits_head _ Hds) as (c & r & -> & Hc).
      push_append. rewrite skipws_cons by now apply digit_not_space.
      destruct (digit_not_sign c Hc) as [-> ->].
      apply scan_unsigned_iff. exists (String c r). auto.
    + push_append. rewrite skipws_cons by reflexivity.
      change (Ascii.eqb "+" "-") with false. change (Ascii.eqb "+" "+") with true.
      cbv iota. apply scan_unsigned_iff. exists ds. auto.
    + push_append. rewrite skipws_cons by reflexivity.
      change (Ascii.eqb "-" "-") with true. cbv iota.
      assert (Hu : scan_unsigned (ds ++ rest) = Some (decimal_value ds, rest))
        by (apply scan_unsigned_iff; exists ds; auto).
      now rewrite Hu.
Qed.

End Scanning.

(* ===================================================================== *)
(** * The device identifier *)
(* ===================================================================== *)

Section Device.

Lemma substring_all s : String.substring 0 (String.length s) s = s.
Proof. induction s as [| c r IH]; simpl; congruence. Qed.

Lemma substr_video lit : substr 10 ("/dev/video" ++ lit)%string = lit.
Proof.
  unfold substr. rewrite !append_cons, append_nil_l.
  cbn [String.length Nat.sub String.substring]. rewrite Nat.sub_0_r.
  apply substring_all.
Qed.

Lemma prefix_video lit : String.prefix "/dev/video" ("/dev/video" ++ lit)%string = true.
Proof. rewrite !append_cons, append_nil_l. destruct lit; reflexivity. Qed.

Lemma prefix_head_ne a s1 b s2 :
  a <> b -> String.prefix (String a s1) (String b s2) = false.
Proof.
  intros H.
  change (String.prefix (String a s1) (String b s2))
    with (if Ascii.ascii_dec a b then String.prefix s1 s2 else false).
  destruct (Ascii.ascii_dec a b); congruence.
Qed.

(** An integer literal starts with a sign or a digit, never with [/]. *)
Lemma prefix_video_literal lit v :
  int_literal lit v -> String.prefix "/dev/video" lit = false.
Proof.
  intros [ds Hds | ds Hds | ds Hds]; try (apply prefix_head_ne; discriminate).
  destruct (is_digits_head _ Hds) as (c & r & -> & Hc).
  apply prefix_head_ne. intros <-. discriminate.
Qed.

Lemma stoi_literal lit v :
  int_literal lit v -> INT_MIN <= v <= INT_MAX -> stoi lit = StoiOk v.
Proof.
  intros Hlit Hv. unfold stoi.
  assert (Hs : scan_int lit = Some (v, EmptyString)).
  { apply scan_int_iff. exists EmptyString, lit.
    rewrite append_nil_l, append_nil_r. repeat split; auto. }
  rewrite Hs. unfold in_int.
  destruct (Z.leb_spec INT_MIN v), (Z.leb_spec v INT_MAX); simpl; auto; lia.
Qed.

End Device.

(** C6: for a device argument [/dev/video<N>], with [N] an integer literal
    that fits an [int], the derived identifier is [N], and for a bare
    integer argument it is that integer; it is the identifier [main] opens
    the capture device with. *)
Theorem device_identifier :
  forall lit N,
    int_literal lit N ->
    INT_MIN <= N <= INT_MAX ->
    device_of ("/dev/video" ++ lit)%string = StoiOk N
    /\ device_of lit = StoiOk N
    /\ forall e program,
        hd_error (fst (main e [program; "-d"%string; ("/dev/video" ++ lit)%string]))
        = Some (VideoCapture N)
        /\ hd_error (fst (main e [program; "--device"%string; lit]))
           = Some (VideoCapture N).
Proof.
  intros lit N Hlit HN.
  assert (H1 : device_of ("/dev/video" ++ lit)%string = StoiOk N).
  { unfold device_of. rewrite prefix_video, substr_video. now apply stoi_literal. }
  assert (H2 : device_of lit = StoiOk N).
  { unfold device_of. rewrite (prefix_video_literal lit N Hlit). now apply stoi_literal. }
  split; [exact H1 |]. split; [exact H2 |].
  assert (Hmain : forall e program key dev,
             is_help key = false -> value_option key = Some "device"%string ->
             device_of dev = StoiOk N ->
             hd_error (fst (main e [program; key; dev])) = Some (VideoCapture N)).
  { intros e program key dev Hh Hv Hdev. unfold main, parseArgs. simpl tail.
    rewrite (parseArgs_from_value key "device"%string) by assumption.
    cbn [parseArgs_from].
    rewrite bool_decide_eq_false_2
      by (rewrite lookup_insert_ne, lookup_empty by done; apply is_Some_None).
    rewrite lookup_insert_eq. cbn [from_option id]. rewrite Hdev.
    rewrite !lookup_insert_ne, !lookup_empty by done. cbn [from_option id negb].
    change (fourccFromString "MJPG" =? 0) with false. cbv iota.
    destruct (opens e N); cbn [negb]; [| reflexivity].
    destruct (bench_loop _ _ _) as [[c out] []]; reflexivity. }
  intros e program. split; apply Hmain; auto.
Qed.

Lemma device_identifier_witness :
  device_of "/dev/video3" = StoiOk 3 /\ device_of "2" = StoiOk 2.
Proof.
  assert (H3 : int_literal "3" 3)
    by (apply (literal_plain "3"); split; [discriminate | reflexivity]).
  assert (H2 : int_literal "2" 2)
    by (apply (literal_plain "2"); split; [discriminate | reflexivity]).
  split.
  - apply (device_identifier "3" 3 H3). unfold INT_MIN, INT_MAX. lia.
  - apply (device_identifier "2" 2 H2). unfold INT_MIN, INT_MAX. lia.
Defined.

(* ===================================================================== *)
(** * The resolution decoder *)
(* ===================================================================== *)

Section Resolution.

Implicit Types (ss : istream) (s rest : string) (n v : Z).

Lemma extract_int_ok s n v rest :
  int_field s v rest ->
  extract_int {| buf := s; good := true |} n = ({| buf := rest; good := true |}, v).
Proof.
  intros (ws & lit & Heq & Hws & Hlit & Hv & Hrest).
  assert (Hs : scan_int s = Some (v, rest))
    by (apply scan_int_iff; exists ws, lit; auto).
  unfold extract_int. cbn [good buf].
  assert (Hne : exists c r, skipws s = String c r).
  { unfold scan_int in Hs. destruct (skipws s) as [| c r]; [discriminate | eauto]. }
  destruct Hne as (c & r & ->). rewrite Hs.
  destruct (Z.ltb_spec INT_MAX v); [lia |].
  destruct (Z.ltb_spec v INT_MIN); [lia | reflexivity].
Qed.

(** A stream that is good after [>> n] was good before, and read an
    integer field. *)
Lemma extract_int_good ss n ss' v :
  extract_int ss n = (ss', v) ->
  good ss' = true ->
  good ss = true /\ int_field (buf ss) v (buf ss').
Proof.
  unfold extract_int. destruct (good ss) eqn:Hg.
  - destruct (skipws (buf ss)) as [| c0 r0].
    { intros H. injection H as <- <-. discriminate. }
    destruct (scan_int (buf ss)) as [[u rest] |] eqn:Hs.
    + destruct (Z.ltb_spec INT_MAX u) as [Hhi | Hhi].
      { intros H. injection H as <- <-. discriminate. }
      destruct (Z.ltb_spec u INT_MIN) as [Hlo | Hlo].
      { intros H. injection H as <- <-. discriminate. }
      intros H. injection H as <- <-. intros _. split; [reflexivity |].
      apply scan_int_iff in Hs as (ws & lit & Heq & Hws & Hlit & Hrest).
      exists ws, lit. cbn [buf]. repeat split; auto; lia.
    + intros H. injection H as <- <-. discriminate.
  - intros H. injection H as <- <-. congruence.
Qed.

Lemma extract_char_ok s c rest o :
  char_field s c rest ->
  extract_char {| buf := s; good := true |} o
  = ({| buf := rest; good := true |}, Some c).
Proof.
  intros (ws & -> & Hws & Hc).
  unfold extract_char. cbn [good buf].
  now rewrite skipws_app, skipws_cons.
Qed.

Lemma extract_char_good ss o ss' o' :
  extract_char ss o = (ss', o') ->
  good ss' = true ->
  good ss = true /\ exists c, o' = Some c /\ char_field (buf ss) c (buf ss').
Proof.
  unfold extract_char. destruct (good ss) eqn:Hg.
  - destruct (skipws_split (buf ss)) as (ws & Heq & Hws & Hhd).
    destruct (skipws (buf ss)) as [| c r].
    + intros H. injection H as <- <-. discriminate.
    + intros H. injection H as <- <-. intros _. split; [reflexivity |].
      exists c. split; [reflexivity |]. exists ws. cbn [buf]. auto.
  - intros H. injection H as <- <-. congruence.
Qed.

(** The decoder accepts exactly the strings of the shape
    [<int>x<int>@<int>] and hands back the three integers. *)
Lemma parseResolution_iff s init w h f :
  parseResolution s init = (true, (w, h, f)) <-> resolution_shape s w h f.
Proof.
  destruct init as [[w0 h0] f0]. split.
  - unfold parseResolution.
    destruct (extract_int (stringstream s) w0) as [ss1 w1] eqn:E1.
    destruct (extract_char ss1 None) as [ss2 x] eqn:E2.
    destruct (extract_int ss2 h0) as [ss3 h1] eqn:E3.
    destruct (extract_char ss3 None) as [ss4 a] eqn:E4.
    destruct (extract_int ss4 f0) as [ss5 f1] eqn:E5.
    destruct (good ss5) eqn:G5; [| discriminate].
    intros H. injection H as Hsep <- <- <-.
    apply andb_true_iff in Hsep as [Hx Ha].
    apply bool_decide_eq_true in Hx, Ha. subst x a.
    destruct (extract_int_good _ _ _ _ E5 G5) as [G4 F5].
    destruct (extract_char_good _ _ _ _ E4 G4) as [G3 (c4 & Hc4 & F4)].
    destruct (extract_int_good _ _ _ _ E3 G3) as [G2 F3].
    destruct (extract_char_good _ _ _ _ E2 G2) as [G1 (c2 & Hc2 & F2)].
    destruct (extract_int_good _ _ _ _ E1 G1) as [_ F1].
    injection Hc4 as <-. injection Hc2 as <-.
    exists (buf ss1), (buf ss2), (buf ss3), (buf ss4), (buf ss5). auto.
  - intros (r1 & r2 & r3 & r4 & r5 & F1 & F2 & F3 & F4 & F5).
    unfold parseResolution, stringstream.
    rewrite (extract_int_ok _ _ _ _ F1).
    rewrite (extract_char_ok _ _ _ None F2).
    rewrite (extract_int_ok _ _ _ _ F3).
    rewrite (extract_char_ok _ _ _ None F4).
    rewrite (extract_int_ok _ _ _ _ F5).
    cbn [good]. now rewrite !bool_decide_eq_true_2.
Qed.

End Resolution.

(* ===================================================================== *)
(** * The format encoder *)
(* ===================================================================== *)

Section Fourcc.

Lemma byte_of_range c : 0 <= byte_of c < 256.
Proof.
  unfold byte_of. pose proof (N_ascii_bounded c). lia.
Qed.

Lemma byte_of_zero c : byte_of c = 0 -> c = Ascii.zero.
Proof.
  unfold byte_of. intros H.
  rewrite <- (ascii_N_embedding c).
  replace (N_of_ascii c) with 0%N by lia. reflexivity.
Qed.

Lemma land_byte c : Z.land (byte_of c) 255 = byte_of c.
Proof.
  change 255 with (Z.ones 8). rewrite Z.land_ones by lia.
  pose proof (byte_of_range c). apply Z.mod_small. lia.
Qed.

(** The packed code before its reduction to an [int]. *)
Lemma fourcc_sum c1 c2 c3 c4 :
  fourcc c1 c2 c3 c4
  = wrap32 (byte_of c1 + byte_of c2 * 2 ^ 8 + byte_of c3 * 2 ^ 16 + byte_of c4 * 2 ^ 24).
Proof.
  unfold fourcc. rewrite !land_byte, !Z.shiftl_mul_pow2 by lia. reflexivity.
Qed.

Lemma wrap32_range z : INT_MIN <= wrap32 z <= INT_MAX.
Proof.
  unfold wrap32, INT_MIN, INT_MAX.
  pose proof (Z.mod_pos_bound (z + 2 ^ 31) (2 ^ 32) ltac:(lia)). lia.
Qed.

Lemma wrap32_small z : INT_MIN <= z <= INT_MAX -> wrap32 z = z.
Proof.
  unfold wrap32, INT_MIN, INT_MAX. intros H.
  rewrite Z.mod_small by lia. lia.
Qed.

Lemma wrap32_zero z : 0 <= z < 2 ^ 32 -> wrap32 z = 0 -> z = 0.
Proof.
  unfold wrap32. intros Hz H.
  destruct (Z.lt_ge_cases z (2 ^ 31)) as [Hlt | Hge].
  - rewrite Z.mod_small in H by lia. lia.
  - assert (Hm : (z + 2 ^ 31) mod 2 ^ 32 = z - 2 ^ 31).
    { symmetry. apply (Z.mod_unique _ _ 1); lia. }
    lia.
Qed.

Lemma fourcc_zero c1 c2 c3 c4 :
  fourcc c1 c2 c3 c4 = 0 ->
  c1 = Ascii.zero /\ c2 = Ascii.zero /\ c3 = Ascii.zero /\ c4 = Ascii.zero.
Proof.
  rewrite fourcc_sum. intros H.
  pose proof (byte_of_range c1). pose proof (byte_of_range c2).
  pose proof (byte_of_range c3). pose proof (byte_of_range c4).
  apply wrap32_zero in H; [| lia].
  repeat split; apply byte_of_zero; lia.
Qed.

Lemma string_length_4 format :
  String.length format = 4%nat ->
  exists c1 c2 c3 c4,
    format = String c1 (String c2 (String c3 (String c4 EmptyString))).
Proof.
  destruct format as [| c1 [| c2 [| c3 [| c4 [| c5 r]]]]]; try discriminate.
  intros _. now exists c1, c2, c3, c4.
Qed.

Lemma fourccFromString_other_length format :
  String.length format <> 4%nat -> fourccFromString format = 0.
Proof.
  intros H. unfold fourccFromString.
  destruct (Nat.eqb_spec (String.length format) 4); [contradiction | reflexivity].
Qed.

Lemma fourccFromString_length_4 format :
  String.length format = 4%nat ->
  format <> nul4 ->
  fourccFromString format <> 0.
Proof.
  intros Hlen Hne H0.
  destruct (string_length_4 _ Hlen) as (c1 & c2 & c3 & c4 & ->).
  unfold fourccFromString in H0. cbn in H0.
  apply fourcc_zero in H0 as (-> & -> & -> & ->). now apply Hne.
Qed.

End Fourcc.

(** C3, as the specification states it, fails: the string of four NUL
    characters has length 4 and its packed code is 0, the value the encoder
    returns for a failure. *)
Lemma four_nul_characters_encode_to_zero :
  String.length nul4 = 4%nat /\ fourccFromString nul4 = 0.
Proof. split; reflexivity. Qed.

(** C3, amended: for a format string of a length other than 4 the encoder
    fails (it returns 0, and a run that gets as far as the encoder prints
    the invalid-format error and exits with code 1); for a string of
    length 4 other than four NUL characters, hence for every command-line
    token of length 4, it returns a non-zero [int], a function of the
    string alone. *)
Theorem format_encoder :
  (forall format,
      String.length format <> 4%nat -> fourccFromString format = 0)
  /\ (forall format,
        String.length format = 4%nat ->
        format <> nul4 ->
        fourccFromString format <> 0
        /\ INT_MIN <= fourccFromString format <= INT_MAX)
  /\ (forall e argv args device format,
        parseArgs argv = Parsed args ->
        args !! "help"%string = None ->
        device_of (default "0"%string (args !! "device"%string)) = StoiOk device ->
        match args !! "resolution"%string with
        | Some res => fst (parseResolution res (640, 480, 30)) = true
        | None => True
        end ->
        default "MJPG"%string (args !! "format"%string) = format ->
        String.length format <> 4%nat ->
        main e argv = ([InvalidFormat format], Exit 1)).
Proof.
  split; [| split].
  - apply fourccFromString_other_length.
  - intros format Hlen Hne. split.
    + now apply fourccFromString_length_4.
    + destruct (string_length_4 _ Hlen) as (c1 & c2 & c3 & c4 & ->).
      apply wrap32_range.
  - intros e argv args device format Hp Hh Hdev Hres Hfmt Hlen.
    unfold main. rewrite Hp.
    rewrite bool_decide_eq_false_2 by (rewrite Hh; apply is_Some_None).
    cbv zeta. rewrite Hdev, Hfmt.
    rewrite (fourccFromString_other_length _ Hlen).
    destruct (args !! "resolution"%string) as [res |].
    + destruct (parseResolution res (640, 480, 30)) as [ok [[w h] f]].
      cbn [fst] in Hres. subst ok. reflexivity.
    + reflexivity.
Qed.

Lemma format_encoder_witness :
  main {| opens := fun _ => true; start_time := 0; reads := [Frame 1] |}
       ["camtest"; "-f"; "MJPEG"]%string
  = ([InvalidFormat "MJPEG"], Exit 1)
  /\ fourccFromString "YUYV" <> 0.
Proof.
  split.
  - apply (proj2 (proj2 format_encoder) _ _
             (<["format"%string := "MJPEG"%string]> ∅) 0 "MJPEG"%string).
    + reflexivity.
    + now rewrite lookup_insert_ne.
    + rewrite lookup_insert_ne by done. reflexivity.
    + now rewrite lookup_insert_ne.
    + now rewrite lookup_insert_eq.
    + discriminate.
  - apply (proj1 (proj2 format_encoder) "YUYV"%string).
    + reflexivity.
    + discriminate.
Defined.

(* ===================================================================== *)
(** * The benchmark loop *)
(* ===================================================================== *)

Section Loop.

Implicit Types (c : counters) (r : read_result) (out : list event).
Implicit Types (st : loop_status) (reads : list read_result).

Lemma incr_small i : INT_MIN <= i < INT_MAX -> incr i = i + 1.
Proof. intros H. unfold incr. apply wrap32_small. lia. Qed.

Lemma seconds_ge_1 d : 1 <= seconds d -> 1000000000 <= d.
Proof.
  unfold seconds. intros H.
  destruct (Z.lt_ge_cases d 1000000000) as [Hlt | Hge]; [| exact Hge].
  destruct (Z.lt_ge_cases d 0) as [Hneg | Hpos].
  - assert (d ÷ 1000000000 <= 0) by (apply Z.quot_le_upper_bound; lia). lia.
  - rewrite Z.quot_small in H by lia. lia.
Qed.

Lemma seconds_lower_bound d k :
  0 <= k -> k * 1000000000 <= d -> k <= seconds d.
Proof.
  intros Hk H. unfold seconds. apply Z.quot_le_lower_bound; lia.
Qed.

Lemma bench_loop_cons start r reads c :
  bench_loop start (r :: reads) c
  = match iteration start r c with
    | (c1, out, Running) =>
        let '(c2, out2, st) := bench_loop start reads c1 in (c2, out ++ out2, st)
    | stopped => stopped
    end.
Proof. reflexivity. Qed.

(** What one iteration prints, by the way it ends. *)
Lemma iteration_out start r c c' out st :
  iteration start r c = (c', out, st) ->
  match st with
  | Running => forallb quiet out = true
  | Done => exists out1 n t a, out = out1 ++ [Captured n t a] /\ forallb quiet out1 = true
  | Failed => out = [CaptureFailed] /\ c' = c /\ r = NoFrame
  end.
Proof.
  unfold iteration. destruct r as [now |].
  - destruct (1 <=? seconds (now - last_report c));
      destruct (test_duration_sec <=? seconds (now - start));
      intros H; injection H as <- <- <-; try reflexivity.
    + eexists [_], _, _, _. split; reflexivity.
    + eexists [], _, _, _. split; reflexivity.
  - intros H. injection H as <- <- <-. auto.
Qed.

Lemma forallb_quiet_app out1 out2 :
  forallb quiet (out1 ++ out2) = forallb quiet out1 && forallb quiet out2.
Proof. apply forallb_app. Qed.

(** What the loop prints, by the way it ends. *)
Lemma bench_loop_out start reads : forall c c' out st,
  bench_loop start reads c = (c', out, st) ->
  match st with
  | Running => forallb quiet out = true
  | Done => exists out1 n t a, out = out1 ++ [Captured n t a] /\ forallb quiet out1 = true
  | Failed => exists out1, out = out1 ++ [CaptureFailed] /\ forallb quiet out1 = true
  end.
Proof.
  induction reads as [| r reads IH]; intros c c' out st.
  - simpl. intros H. injection H as <- <- <-. reflexivity.
  - rewrite bench_loop_cons.
    destruct (iteration start r c) as [[c1 out1] st1] eqn:Hit.
    pose proof (iteration_out _ _ _ _ _ _ Hit) as Hout1.
    destruct st1.
    + destruct (bench_loop start reads c1) as [[c2 out2] st2] eqn:Hl.
      intros H. injection H as <- <- <-.
      specialize (IH _ _ _ _ Hl). destruct st2.
      * rewrite forallb_quiet_app, Hout1, IH. reflexivity.
      * destruct IH as (o & n & t & a & -> & Hq).
        exists (out1 ++ o), n, t, a. rewrite forallb_quiet_app, Hout1, Hq.
        now rewrite <- app_assoc.
      * destruct IH as (o & -> & Hq).
        exists (out1 ++ o). rewrite forallb_quiet_app, Hout1, Hq.
        now rewrite <- app_assoc.
    + intros H. injection H as <- <- <-. exact Hout1.
    + intros H. injection H as <- <- <-. destruct Hout1 as (-> & _).
      now exists [].
Qed.

(** A loop still running after some reads goes on with the next ones. *)
Lemma bench_loop_app start reads : forall reads' c c1 out,
  bench_loop start reads c = (c1, out, Running) ->
  bench_loop start (reads ++ reads') c
  = let '(c2, out2, st) := bench_loop start reads' c1 in (c2, out ++ out2, st).
Proof.
  induction reads as [| r reads IH]; intros reads' c c1 out.
  - simpl. intros H. injection H as <- <-.
    now destruct (bench_loop start reads' c) as [[c2 out2] st].
  - rewrite <- app_comm_cons, !bench_loop_cons.
    destruct (iteration start r c) as [[c' out1] []]; try discriminate.
    destruct (bench_loop start reads c') as [[c2 out2] st2] eqn:Hl.
    intros H. injection H as <- <- ->.
    rewrite (IH reads' _ _ _ Hl).
    destruct (bench_loop start reads' c2) as [[c3 out3] st3].
    now rewrite app_assoc.
Qed.

Lemma quiet_no_summary out :
  forallb quiet out = true -> forallb (fun ev => negb (is_summary ev)) out = true.
Proof.
  induction out as [| ev out IH]; [reflexivity |].
  simpl. intros H. apply andb_true_iff in H as [Hq Hr].
  unfold quiet in Hq. apply andb_true_iff in Hq as [-> _]. auto.
Qed.

Lemma quiet_no_failure out : forallb quiet out = true -> ~ In CaptureFailed out.
Proof.
  intros H Hin. rewrite forallb_forall in H. specialize (H _ Hin). discriminate.
Qed.

Lemma quiet_no_captured out n t a :
  forallb quiet out = true -> ~ In (Captured n t a) out.
Proof.
  intros H Hin. rewrite forallb_forall in H. specialize (H _ Hin). discriminate.
Qed.

End Loop.

(** C7: an iteration whose frame read fails reports the error, leaves both
    counters as they were and ends the loop; a loop that was still running
    ends there with the counts it had, and nothing it printed, before or in
    that iteration, is an average-FPS summary. *)
Theorem read_failure_ends_loop :
  (forall start c, iteration start NoFrame c = (c, [CaptureFailed], Failed))
  /\ (forall start reads rest c c1 out,
        bench_loop start reads c = (c1, out, Running) ->
        bench_loop start (reads ++ NoFrame :: rest) c
        = (c1, out ++ [CaptureFailed], Failed)
        /\ forallb (fun ev => negb (is_summary ev)) (out ++ [CaptureFailed]) = true).
Proof.
  split; [reflexivity |].
  intros start reads rest c c1 out Hrun. split.
  - rewrite (bench_loop_app _ _ _ _ _ _ Hrun). reflexivity.
  - pose proof (bench_loop_out _ _ _ _ _ _ Hrun) as Hq. cbv iota in Hq.
    rewrite forallb_app, (quiet_no_summary _ Hq). reflexivity.
Qed.

Lemma read_failure_ends_loop_witness :
  bench_loop 0 ([Frame 400000000; Frame 1200000000] ++ [NoFrame; Frame 1300000000])
             (init_counters 0)
  = ({| total_frames := 2; frames_last_second := 0; last_report := 1200000000 |},
     [CurrentFPS 2] ++ [CaptureFailed], Failed).
Proof.
  apply (proj2 read_failure_ends_loop 0 [Frame 400000000; Frame 1200000000]).
  reflexivity.
Defined.

(** C10: a run gets to open the device when the command line is parsed
    without help, the device argument is a number, the resolution (if any)
    decodes and the format encodes. In every such run in which the device
    opens and, with the loop still running, a frame read fails, [main]
    prints the failure, releases the capture device as its last act and
    returns 0; a run that completes with its summary releases the device
    and returns 0 as well. *)
Theorem read_failure_exit_code :
  forall e argv args device w h f,
    parseArgs argv = Parsed args ->
    args !! "help"%string = None ->
    device_of (default "0"%string (args !! "device"%string)) = StoiOk device ->
    match args !! "resolution"%string with
    | Some res => parseResolution res (640, 480, 30) = (true, (w, h, f))
    | None => (w, h, f) = (640, 480, 30)
    end ->
    fourccFromString (default "MJPG"%string (args !! "format"%string)) <> 0 ->
    opens e device = true ->
    (forall before after c out,
        reads e = before ++ NoFrame :: after ->
        bench_loop (start_time e) before (init_counters (start_time e))
        = (c, out, Running) ->
        main e argv
        = ([VideoCapture device;
            CapSet CAP_PROP_FRAME_WIDTH w;
            CapSet CAP_PROP_FRAME_HEIGHT h;
            CapSet CAP_PROP_FOURCC
              (fourccFromString (default "MJPG"%string (args !! "format"%string)));
            CapSet CAP_PROP_FPS f;
            Testing w h f (default "MJPG"%string (args !! "format"%string))]
             ++ out ++ [CaptureFailed; Release],
           Exit 0))
    /\ (forall c out,
          bench_loop (start_time e) (reads e) (init_counters (start_time e))
          = (c, out, Done) ->
          main e argv
          = ([VideoCapture device;
              CapSet CAP_PROP_FRAME_WIDTH w;
              CapSet CAP_PROP_FRAME_HEIGHT h;
              CapSet CAP_PROP_FOURCC
                (fourccFromString (default "MJPG"%string (args !! "format"%string)));
              CapSet CAP_PROP_FPS f;
              Testing w h f (default "MJPG"%string (args !! "format"%string))]
               ++ out ++ [Release],
             Exit 0)).
Proof.
  intros e argv args device w h f Hp Hh Hdev Hres Hfmt Hopen.
  assert (Hcfg : match args !! "resolution"%string with
                 | Some res => parseResolution res (640, 480, 30)
                 | None => (true, (640, 480, 30))
                 end = (true, (w, h, f))).
  { destruct (args !! "resolution"%string) as [res |].
    - exact Hres.
    - now injection Hres as -> -> ->. }
  assert (Hmain : forall c out st,
             bench_loop (start_time e) (reads e) (init_counters (start_time e))
             = (c, out, st) ->
             st <> Running ->
             main e argv
             = ([VideoCapture device;
                 CapSet CAP_PROP_FRAME_WIDTH w;
                 CapSet CAP_PROP_FRAME_HEIGHT h;
                 CapSet CAP_PROP_FOURCC
                   (fourccFromString (default "MJPG"%string (args !! "format"%string)));
                 CapSet CAP_PROP_FPS f;
                 Testing w h f (default "MJPG"%string (args !! "format"%string))]
                  ++ out ++ [Release],
                Exit 0)).
  { intros c out st Hloop Hst. unfold main. rewrite Hp.
    rewrite bool_decide_eq_false_2 by (rewrite Hh; apply is_Some_None).
    cbv zeta. rewrite Hdev, Hcfg. cbn [negb].
    destruct (Z.eqb_spec (fourccFromString (default "MJPG"%string (args !! "format"%string))) 0)
      as [Hz | _]; [contradiction |].
    rewrite Hopen. cbn [negb]. rewrite Hloop.
    destruct st; [contradiction | reflexivity | reflexivity]. }
  split.
  - intros before after c out Hreads Hrun.
    rewrite (Hmain c (out ++ [CaptureFailed]) Failed).
    + now rewrite <- app_assoc.
    + rewrite Hreads. rewrite (bench_loop_app _ _ _ _ _ _ Hrun). reflexivity.
    + discriminate.
  - intros c out Hloop. apply (Hmain c out Done Hloop). discriminate.
Qed.

Lemma read_failure_exit_code_witness :
  main {| opens := fun _ => true; start_time := 0;
          reads := [Frame 400000000; Frame 1100000000] ++ NoFrame :: [Frame 1200000000] |}
       ["camtest"; "-d"; "/dev/video2"]%string
  = ([VideoCapture 2;
      CapSet CAP_PROP_FRAME_WIDTH 640;
      CapSet CAP_PROP_FRAME_HEIGHT 480;
      CapSet CAP_PROP_FOURCC 1196444237;
      CapSet CAP_PROP_FPS 30;
      Testing 640 480 30 "MJPG"]
       ++ [CurrentFPS 2] ++ [CaptureFailed; Release],
     Exit 0).
Proof.
  pose proof (read_failure_exit_code
                {| opens := fun _ => true; start_time := 0;
                   reads := [Frame 400000000; Frame 1100000000]
                              ++ NoFrame :: [Frame 1200000000] |}
                ["camtest"; "-d"; "/dev/video2"]%string
                (<["device"%string := "/dev/video2"%string]> ∅) 2 640 480 30 eq_refl) as H.
  rewrite lookup_insert_eq in H. rewrite !lookup_insert_ne, !lookup_empty in H by done.
  destruct H as [Hfail _];
    [reflexivity | reflexivity | reflexivity | discriminate | reflexivity |].
  apply (Hfail [Frame 400000000; Frame 1100000000] [Frame 1200000000]
           {| total_frames := 2; frames_last_second := 0; last_report := 1100000000 |}
           [CurrentFPS 2]); reflexivity.
Defined.

Section Counting.

Implicit Types (c : counters) (out : list event).

(** One iteration on a frame, with the counters away from [INT_MAX]. *)
Lemma iteration_frame start now c :
  INT_MIN <= total_frames c < INT_MAX ->
  INT_MIN <= frames_last_second c < INT_MAX ->
  exists c' out st,
    iteration start (Frame now) c = (c', out, st)
    /\ total_frames c' = total_frames c + 1
    /\ (st = if test_duration_sec <=? seconds (now - start) then Done else Running)
    /\ ((1 <= seconds (now - last_report c)
         /\ hd_error out = Some (CurrentFPS (frames_last_second c + 1))
         /\ reports out = 1
         /\ frames_last_second c' = 0
         /\ last_report c' = now)
        \/ (seconds (now - last_report c) < 1
            /\ reports out = 0
            /\ frames_last_second c' = frames_last_second c + 1
            /\ last_report c' = last_report c))
    /\ (st = Done ->
        exists out1,
          out = out1 ++ [Captured (total_frames c + 1) (seconds (now - start))
                           (PrimFloat.div (double_of_Z (total_frames c + 1))
                                          (double_of_Z (seconds (now - start))))]).
Proof.
  intros Ht Hl. unfold iteration.
  rewrite (incr_small _ Ht), (incr_small _ Hl).
  destruct (Z.leb_spec 1 (seconds (now - last_report c))) as [Hr | Hr];
    destruct (test_duration_sec <=? seconds (now - start));
    do 3 eexists; (split; [reflexivity |]); cbn [total_frames];
    (split; [reflexivity |]); (split; [reflexivity |]);
    (split; [first [left; repeat split; (reflexivity || assumption)
                   | right; repeat split; (reflexivity || assumption)] |]);
    intros Hst; try discriminate; eexists; reflexivity.
Qed.

(** While the test duration has not elapsed, frames are counted and the
    loop goes on. *)
Lemma bench_loop_frames start times : forall c,
  Forall (fun t => seconds (t - start) < test_duration_sec) times ->
  0 <= frames_last_second c <= total_frames c ->
  total_frames c + Z.of_nat (length times) <= INT_MAX ->
  exists c' out,
    bench_loop start (map Frame times) c = (c', out, Running)
    /\ total_frames c' = total_frames c + Z.of_nat (length times)
    /\ 0 <= frames_last_second c' <= total_frames c'.
Proof.
  induction times as [| t times IH]; intros c Hall Hc Hmax.
  - exists c, []. cbn [map bench_loop length Z.of_nat]. split; [reflexivity | lia].
  - apply Forall_cons in Hall as [Ht Hall].
    cbn [length] in Hmax. rewrite Nat2Z.inj_succ in Hmax.
    destruct (iteration_frame start t c) as (c1 & out1 & st1 & Hit & Htot & Hst & Hcase & _);
      [unfold INT_MIN in *; lia | unfold INT_MIN in *; lia |].
    destruct (Z.leb_spec test_duration_sec (seconds (t - start))); [lia |]. subst st1.
    destruct (IH c1 Hall) as (c2 & out2 & Hl & Htot2 & Hinv2).
    { destruct Hcase as [(_ & _ & _ & -> & _) | (_ & _ & -> & _)]; lia. }
    { lia. }
    exists c2, (out1 ++ out2). cbn [map]. rewrite bench_loop_cons, Hit, Hl.
    split; [reflexivity |]. cbn [length]. rewrite Nat2Z.inj_succ. lia.
Qed.

End Counting.

(** C1: when, after frames read within the test duration, a frame is read
    with at least the 5 seconds of the test elapsed since the start, the
    loop ends with the summary as the last thing printed: the total is the
    number of frames read, the seconds are the whole seconds elapsed, and
    the average is their quotient in [double]; with 150 frames and 5 whole
    seconds the summary reads 150 frames, 5 seconds, average 30.0. *)
Theorem final_summary :
  forall start times now rest,
    Forall (fun t => seconds (t - start) < test_duration_sec) times ->
    test_duration_sec <= seconds (now - start) ->
    Z.of_nat (length times) < INT_MAX ->
    let total := Z.of_nat (length times) + 1 in
    let elapsed := seconds (now - start) in
    exists c out,
      bench_loop start (map Frame times ++ Frame now :: rest) (init_counters start)
      = (c, out ++ [Captured total elapsed
                      (PrimFloat.div (double_of_Z total) (double_of_Z elapsed))],
         Done)
      /\ total_frames c = total
      /\ forallb quiet out = true
      /\ (total = 150 -> elapsed = 5 ->
          last (out ++ [Captured total elapsed
                          (PrimFloat.div (double_of_Z total) (double_of_Z elapsed))])
          = Some (Captured 150 5 30%float)).
Proof.
  intros start times now rest Hall Hnow Hlen total elapsed.
  destruct (bench_loop_frames start times (init_counters start) Hall)
    as (c1 & out1 & Hl & Htot & Hinv).
  { cbn. lia. }
  { cbn [init_counters total_frames]. lia. }
  cbn [init_counters total_frames] in Htot.
  destruct (iteration_frame start now c1) as (c2 & out2 & st & Hit & Htot2 & Hst & _ & Hdone);
    [unfold INT_MIN in *; lia | unfold INT_MIN in *; lia |].
  destruct (Z.leb_spec test_duration_sec (seconds (now - start))); [| lia]. subst st.
  destruct (Hdone eq_refl) as (o & ->).
  pose proof (iteration_out _ _ _ _ _ _ Hit) as (o' & n & t & a & Heq & Hq).
  apply app_inj_tail in Heq as [<- _].
  rewrite Htot in *. replace (0 + Z.of_nat (length times) + 1) with total in * by (unfold total; lia).
  fold elapsed in Hit |- *.
  exists c2, (out1 ++ o).
  rewrite (bench_loop_app _ _ _ _ _ _ Hl), bench_loop_cons, Hit.
  pose proof (bench_loop_out _ _ _ _ _ _ Hl) as Hq1. cbv iota in Hq1.
  split; [now rewrite app_assoc |]. split; [exact Htot2 |].
  split; [now rewrite forallb_app, Hq1, Hq |].
  intros -> ->. rewrite last_snoc. reflexivity.
Qed.

(** A steady source: frame [k] arrives [k/30] seconds after the start. *)
Lemma final_summary_witness :
  exists c out,
    bench_loop 0 (map Frame (map (fun k => Z.of_nat k * 1000000000 / 30) (seq 1 149))
                  ++ Frame 5000000000 :: [])
               (init_counters 0)
    = (c, out ++ [Captured 150 5 30%float], Done)
    /\ total_frames c = 150.
Proof.
  destruct (final_summary 0 (map (fun k => Z.of_nat k * 1000000000 / 30) (seq 1 149))
              5000000000 [])
    as (c & out & Hrun & Htot & _).
  - apply Forall_forall. intros t Hin. apply list_elem_of_In in Hin.
    apply in_map_iff in Hin as (k & <- & Hk). apply in_seq in Hk.
    unfold seconds, test_duration_sec.
    assert (Z.of_nat k * 1000000000 / 30 - 0 < 5000000000).
    { rewrite Z.sub_0_r. apply Z.div_lt_upper_bound; lia. }
    assert (0 <= Z.of_nat k * 1000000000 / 30 - 0).
    { rewrite Z.sub_0_r. apply Z.div_pos; lia. }
    apply Z.quot_lt_upper_bound; lia.
  - vm_compute. discriminate.
  - vm_compute. reflexivity.
  - exists c, out. split; [exact Hrun | exact Htot].
Defined.

Section Reports.

Implicit Types (c : counters) (out : list event).

Lemma reports_app out1 out2 : reports (out1 ++ out2) = reports out1 + reports out2.
Proof.
  unfold reports. rewrite List.filter_app, length_app. lia.
Qed.

Lemma reports_nonneg out : 0 <= reports out.
Proof. unfold reports. lia. Qed.

(** Each report comes a whole second or more after the one before: with
    [k] reports behind it the loop is [k] seconds or more past the start. *)
Lemma bench_loop_reports start reads : forall c c' out st k,
  bench_loop start reads c = (c', out, st) ->
  0 <= frames_last_second c <= total_frames c ->
  total_frames c + Z.of_nat (length reads) <= INT_MAX ->
  k * 1000000000 <= last_report c - start ->
  (k + reports out) * 1000000000 <= last_report c' - start
  /\ 0 <= frames_last_second c' <= total_frames c'
  /\ total_frames c <= total_frames c' <= total_frames c + Z.of_nat (length reads).
Proof.
  induction reads as [| r reads IH]; intros c c' out st k Hrun Hinv Hmax Hk.
  - cbn in Hrun. injection Hrun as <- <- <-.
    change (reports []) with 0. cbn [length Z.of_nat]. lia.
  - cbn [length] in Hmax |- *. rewrite Nat2Z.inj_succ in Hmax |- *.
    rewrite bench_loop_cons in Hrun. destruct r as [now |].
    + destruct (iteration_frame start now c)
        as (c1 & out1 & st1 & Hit & Htot & Hst & Hcase & _);
        [unfold INT_MIN in *; lia | unfold INT_MIN in *; lia |].
      rewrite Hit in Hrun.
      assert (Hstep : (k + reports out1) * 1000000000 <= last_report c1 - start
                      /\ 0 <= frames_last_second c1 <= total_frames c1).
      { destruct Hcase as [(Hsec & _ & -> & -> & ->) | (_ & -> & -> & ->)].
        - apply seconds_ge_1 in Hsec. lia.
        - lia. }
      destruct Hstep as [Hk1 Hinv1].
      destruct st1.
      * destruct (bench_loop start reads c1) as [[c2 out2] st2] eqn:Hl.
        injection Hrun as <- <- <-.
        destruct (IH _ _ _ _ (k + reports out1) Hl Hinv1) as (Hk2 & Hinv2 & Htot2);
          [lia | lia |].
        rewrite reports_app. lia.
      * injection Hrun as <- <- <-. lia.
      * injection Hrun as <- <- <-. lia.
    + cbn in Hrun. injection Hrun as <- <- <-.
      change (reports [CaptureFailed]) with 0. lia.
Qed.

End Reports.

(** C8, as the specification states it, fails: with a frame every 0.3
    seconds the run completes after 5 whole seconds, and the per-interval
    counter has been reset (and reported) four times, not five. *)
Lemma four_resets_in_five_seconds :
  bench_loop 0 (map Frame (map (fun k => Z.of_nat k * 300000000) (seq 1 17)))
             (init_counters 0)
  = ({| total_frames := 17; frames_last_second := 1; last_report := 4800000000 |},
     [CurrentFPS 4; CurrentFPS 4; CurrentFPS 4; CurrentFPS 4;
      Captured 17 5 (PrimFloat.div (double_of_Z 17) (double_of_Z 5))],
     Done)
  /\ reports [CurrentFPS 4; CurrentFPS 4; CurrentFPS 4; CurrentFPS 4;
              Captured 17 5 (PrimFloat.div (double_of_Z 17) (double_of_Z 5))] = 4.
Proof. split; vm_compute; reflexivity. Qed.

(** C8, amended: in every iteration, with the counters below [INT_MAX], the
    running total does not decrease: a frame adds one to it, whether or
    not the per-interval counter is reset; the per-interval counter goes
    up by one as well, unless a whole second or more has passed since the
    last report: then, and only then, its value is reported and it is
    reset to zero, and the report time is set to now. Over a run the
    resets therefore number at most the whole seconds elapsed between the
    start and the last report. *)
Theorem frame_counters :
  (forall start r c c' out st,
      iteration start r c = (c', out, st) ->
      0 <= frames_last_second c <= total_frames c ->
      total_frames c < INT_MAX ->
      total_frames c <= total_frames c'
      /\ 0 <= frames_last_second c' <= total_frames c'
      /\ match r with
         | NoFrame => c' = c /\ reports out = 0
         | Frame now =>
             total_frames c' = total_frames c + 1
             /\ ((1 <= seconds (now - last_report c)
                  /\ hd_error out = Some (CurrentFPS (frames_last_second c + 1))
                  /\ reports out = 1
                  /\ frames_last_second c' = 0
                  /\ last_report c' = now)
                 \/ (seconds (now - last_report c) < 1
                     /\ reports out = 0
                     /\ frames_last_second c' = frames_last_second c + 1
                     /\ last_report c' = last_report c))
         end)
  /\ (forall start reads c out st,
        bench_loop start reads (init_counters start) = (c, out, st) ->
        Z.of_nat (length reads) <= INT_MAX ->
        0 <= frames_last_second c <= total_frames c
        /\ total_frames c <= Z.of_nat (length reads)
        /\ 0 <= reports out <= seconds (last_report c - start)).
Proof.
  split.
  - intros start r c c' out st Hit Hinv Hmax. destruct r as [now |].
    + destruct (iteration_frame start now c)
        as (c1 & out1 & st1 & Hit1 & Htot & _ & Hcase & _);
        [unfold INT_MIN in *; lia | unfold INT_MIN in *; lia |].
      rewrite Hit in Hit1. injection Hit1 as <- <- <-.
      split; [lia |]. split; [| split; [exact Htot | exact Hcase]].
      destruct Hcase as [(_ & _ & _ & -> & _) | (_ & _ & -> & _)]; lia.
    + cbn in Hit. injection Hit as <- <- <-.
      split; [lia |]. split; [lia |]. split; reflexivity.
  - intros start reads c out st Hrun Hlen.
    destruct (bench_loop_reports start reads _ _ _ _ 0 Hrun)
      as (Hk & Hinv & Htot); cbn [init_counters total_frames frames_last_second last_report];
      try lia.
    cbn [init_counters total_frames] in Htot.
    split; [exact Hinv |]. split; [lia |].
    pose proof (reports_nonneg out). split; [lia |].
    apply seconds_lower_bound; lia.
Qed.

Lemma frame_counters_witness :
  total_frames {| total_frames := 30; frames_last_second := 29; last_report := 990000000 |}
  <= total_frames {| total_frames := 31; frames_last_second := 0; last_report := 2000000000 |}
  /\ 0 <= frames_last_second
            {| total_frames := 31; frames_last_second := 0; last_report := 2000000000 |}
       <= total_frames
            {| total_frames := 31; frames_last_second := 0; last_report := 2000000000 |}.
Proof.
  pose proof (proj1 frame_counters 0 (Frame 2000000000)
                {| total_frames := 30; frames_last_second := 29; last_report := 990000000 |}
                {| total_frames := 31; frames_last_second := 0; last_report := 2000000000 |}
                [CurrentFPS 30] Running eq_refl) as H.
  destruct H as (Htotal & Hinterval & _).
  - cbn. lia.
  - cbn. unfold INT_MAX. lia.
  - split; [exact Htotal | exact Hinterval].
Defined.

(* ===================================================================== *)
(** * More on the option parser *)
(* ===================================================================== *)

Section ParseArgsMore.

Implicit Types (key name value : string) (toks rest : list string).
Implicit Types (args : gmap string string).

(** The value-taking tokens are exactly the keys that pass the help test
    and are matched by the chain of lines 36-53. *)
Lemma value_option_tokens key name :
  is_help key = false ->
  value_option key = Some name ->
  In (key, name) value_tokens.
Proof.
  unfold is_help, value_option, value_tokens. intros Hh.
  apply orb_false_iff in Hh as [Hh _]. rewrite Hh. cbn [orb].
  repeat match goal with
         | |- context [(key =? ?b)%string] =>
             destruct (String.eqb_spec key b) as [-> | ?]; cbn [orb];
             [intros H; injection H as <-; cbn; tauto |]
         end.
  discriminate.
Qed.

Lemma value_option_key key name :
  value_option key = Some name -> In name option_keys.
Proof.
  unfold value_option, option_keys.
  repeat match goal with
         | |- context [if ?b then _ else _] =>
             destruct b; [intros H; injection H as <-; cbn; tauto |]
         end.
  discriminate.
Qed.

Lemma parseArgs_from_past_end toks : forall args,
  parseArgs_from toks args = PastEnd ->
  exists pre key name, toks = pre ++ [key] /\ In (key, name) value_tokens.
Proof.
  induction toks as [| key | key value rest IH1 IH2] using token_list_ind;
    intros args Hrun.
  - discriminate.
  - cbn in Hrun. destruct (is_help key) eqn:Hh; [discriminate |].
    destruct (value_option key) as [name |] eqn:Hv; [| discriminate].
    exists [], key, name. split; [reflexivity |]. now apply value_option_tokens.
  - destruct (is_help key) eqn:Hh.
    { rewrite parseArgs_from_help in Hrun by done. discriminate. }
    destruct (value_option key) as [name |] eqn:Hv.
    + rewrite (parseArgs_from_value _ name) in Hrun by done.
      destruct (IH1 _ Hrun) as (pre & k & n & -> & Hin).
      exists (key :: value :: pre), k, n. now split.
    + rewrite parseArgs_from_other in Hrun by done.
      destruct (IH2 _ Hrun) as (pre & k & n & Heq & Hin).
      exists (key :: pre), k, n. rewrite Heq. now split.
Qed.

Lemma parseArgs_from_keys toks : forall args args' k,
  parseArgs_from toks args = Parsed args' ->
  is_Some (args' !! k) ->
  is_Some (args !! k) \/ In k option_keys.
Proof.
  induction toks as [| key | key value rest IH1 IH2] using token_list_ind;
    intros args args' k Hrun Hk.
  - cbn in Hrun. injection Hrun as <-. now left.
  - cbn in Hrun. destruct (is_help key).
    + injection Hrun as <-.
      destruct (decide (k = "help"%string)) as [-> | Hne].
      * right. cbn. tauto.
      * rewrite lookup_insert_ne in Hk by done. now left.
    + destruct (value_option key); [discriminate |].
      injection Hrun as <-. now left.
  - destruct (is_help key) eqn:Hh.
    { rewrite parseArgs_from_help in Hrun by done. injection Hrun as <-.
      destruct (decide (k = "help"%string)) as [-> | Hne].
      - right. cbn. tauto.
      - rewrite lookup_insert_ne in Hk by done. now left. }
    destruct (value_option key) as [name |] eqn:Hv.
    + rewrite (parseArgs_from_value _ name) in Hrun by done.
      destruct (IH1 _ _ _ Hrun Hk) as [Hin | Hin]; [| now right].
      destruct (decide (k = name)) as [-> | Hne].
      * right. now apply (value_option_key key).
      * rewrite lookup_insert_ne in Hin by done. now left.
    + rewrite parseArgs_from_other in Hrun by done. eauto.
Qed.

Lemma parseArgs_from_help_value toks : forall args args' v,
  parseArgs_from toks args = Parsed args' ->
  args' !! "help"%string = Some v ->
  args !! "help"%string = Some v \/ v = "1"%string.
Proof.
  induction toks as [| key | key value rest IH1 IH2] using token_list_ind;
    intros args args' v Hrun Hv.
  - cbn in Hrun. injection Hrun as <-. now left.
  - cbn in Hrun. destruct (is_help key).
    + injection Hrun as <-. rewrite lookup_insert_eq in Hv. injection Hv as <-.
      now right.
    + destruct (value_option key); [discriminate |].
      injection Hrun as <-. now left.
  - destruct (is_help key) eqn:Hh.
    { rewrite parseArgs_from_help in Hrun by done. injection Hrun as <-.
      rewrite lookup_insert_eq in Hv. injection Hv as <-. now right. }
    destruct (value_option key) as [name |] eqn:Hvo.
    + rewrite (parseArgs_from_value _ name) in Hrun by done.
      destruct (IH1 _ _ _ Hrun Hv) as [Hin | Hin]; [| now right].
      assert (name <> "help"%string).
      { intros ->. unfold value_option in Hvo.
        repeat match type of Hvo with
               | (if ?b then _ else _) = _ => destruct b; [discriminate |]
               end. discriminate. }
      rewrite lookup_insert_ne in Hin by done. now left.
    + rewrite parseArgs_from_other in Hrun by done. eauto.
Qed.

(** Where a stored value comes from: it was in the map already, or it is
    the token right after a value-taking option of that name. *)
Lemma parseArgs_from_origin toks : forall args args' name v,
  parseArgs_from toks args = Parsed args' ->
  name <> "help"%string ->
  args' !! name = Some v ->
  args !! name = Some v
  \/ exists pre key post,
      toks = pre ++ key :: v :: post /\ In (key, name) value_tokens.
Proof.
  induction toks as [| key | key value rest IH1 IH2] using token_list_ind;
    intros args args' name v Hrun Hname Hlook.
  - cbn in Hrun. injection Hrun as <-. now left.
  - cbn in Hrun. destruct (is_help key).
    + injection Hrun as <-. rewrite lookup_insert_ne in Hlook by done. now left.
    + destruct (value_option key); [discriminate |].
      injection Hrun as <-. now left.
  - destruct (is_help key) eqn:Hh.
    { rewrite parseArgs_from_help in Hrun by done. injection Hrun as <-.
      rewrite lookup_insert_ne in Hlook by done. now left. }
    destruct (value_option key) as [n |] eqn:Hv.
    + rewrite (parseArgs_from_value _ n) in Hrun by done.
      destruct (IH1 _ _ _ _ Hrun Hname Hlook) as [Hin | (pre & k & post & -> & Hk)].
      * destruct (decide (n = name)) as [-> | Hne].
        -- rewrite lookup_insert_eq in Hin. injection Hin as ->.
           right. exists [], key, rest. split; [reflexivity |].
           now apply value_option_tokens.
        -- rewrite lookup_insert_ne in Hin by done. now left.
      * right. now exists (key :: value :: pre), k, post.
    + rewrite parseArgs_from_other in Hrun by done.
      destruct (IH2 _ _ _ _ Hrun Hname Hlook) as [Hin | (pre & k & post & Heq & Hk)].
      * now left.
      * right. exists (key :: pre), k, post. now rewrite Heq.
Qed.

End ParseArgsMore.

(** X1: the parser reads past the end of [argv] only when the last token
    is one of the value-taking tokens. *)
Theorem past_end_only_after_value_token :
  forall argv,
    parseArgs argv = PastEnd ->
    exists program pre key name,
      argv = program :: pre ++ [key] /\ In (key, name) value_tokens.
Proof.
  intros argv H. unfold parseArgs in H.
  destruct (parseArgs_from_past_end _ _ H) as (pre & key & name & Heq & Hin).
  destruct argv as [| program toks].
  - cbn in Heq. now destruct pre.
  - cbn in Heq. subst toks. now exists program, pre, key, name.
Qed.

Lemma past_end_only_after_value_token_witness :
  exists program pre key name,
    ["camtest"; "--verbose"; "-w"; "800"; "--fps"]%string = program :: pre ++ [key]
    /\ In (key, name) value_tokens.
Proof.
  apply (past_end_only_after_value_token
           ["camtest"; "--verbose"; "-w"; "800"; "--fps"]%string).
  reflexivity.
Defined.

(** X2: a parsed map holds no key besides help, device, width, height,
    format, resolution and fps, and the help flag, when set, is "1". *)
Theorem parsed_keys :
  forall argv args,
    parseArgs argv = Parsed args ->
    (forall k, is_Some (args !! k) -> In k option_keys)
    /\ (forall v, args !! "help"%string = Some v -> v = "1"%string).
Proof.
  intros argv args H. unfold parseArgs in H. split.
  - intros k Hk.
    destruct (parseArgs_from_keys _ _ _ _ H Hk) as [Hin | Hin]; [| exact Hin].
    rewrite lookup_empty in Hin. now destruct Hin.
  - intros v Hv.
    destruct (parseArgs_from_help_value _ _ _ _ H Hv) as [Hin | Hin]; [| exact Hin].
    rewrite lookup_empty in Hin. discriminate.
Qed.

Lemma parsed_keys_witness : In "fps"%string option_keys.
Proof.
  apply (proj1 (parsed_keys ["camtest"; "--color"; "-s"; "15"]%string
                  (<["fps"%string := "15"%string]> ∅) eq_refl) "fps"%string).
  rewrite lookup_insert_eq. eauto.
Defined.

(** X3: every value in a parsed map, the help flag apart, is the token that
    follows a value-taking token of that name on the command line. *)
Theorem parsed_value_origin :
  forall argv args name v,
    parseArgs argv = Parsed args ->
    name <> "help"%string ->
    args !! name = Some v ->
    exists pre key post,
      tail argv = pre ++ key :: v :: post /\ In (key, name) value_tokens.
Proof.
  intros argv args name v H Hname Hv. unfold parseArgs in H.
  destruct (parseArgs_from_origin _ _ _ _ _ H Hname Hv) as [Hin | Hex]; [| exact Hex].
  rewrite lookup_empty in Hin. discriminate.
Qed.

Lemma parsed_value_origin_witness :
  exists pre key post,
    tail ["camtest"; "-f"; "YUYV"; "--device"; "2"]%string
    = pre ++ key :: "2"%string :: post
    /\ In (key, "device"%string) value_tokens.
Proof.
  apply (parsed_value_origin ["camtest"; "-f"; "YUYV"; "--device"; "2"]%string
           (<["device"%string := "2"%string]> (<["format"%string := "YUYV"%string]> ∅))).
  - reflexivity.
  - discriminate.
  - now rewrite lookup_insert_eq.
Defined.

(* ===================================================================== *)
(** * The runs of main *)
(* ===================================================================== *)

Section MainRuns.

Implicit Types (e : env) (argv : list string) (args : gmap string string).
Implicit Types (evs out : list event) (x : exit).

(** [main] looks at the parsed map through four keys only. *)
Lemma main_agree e argv argv' args args' :
  parseArgs argv = Parsed args ->
  parseArgs argv' = Parsed args' ->
  hd EmptyString argv = hd EmptyString argv' ->
  (forall k, In k keys_read_by_main -> args !! k = args' !! k) ->
  main e argv = main e argv'.
Proof.
  intros Hp Hp' Hhd Hk. unfold main. rewrite Hp, Hp', Hhd.
  rewrite (Hk "help"%string), (Hk "device"%string),
    (Hk "format"%string), (Hk "resolution"%string) by (cbn; tauto).
  reflexivity.
Qed.

(** Two parses of the same tokens from maps that agree away from one key
    end the same way, with maps that agree away from that key. *)
Lemma parseArgs_from_agree name toks : forall a1 a2,
  (forall k, k <> name -> a1 !! k = a2 !! k) ->
  match parseArgs_from toks a1, parseArgs_from toks a2 with
  | Parsed r1, Parsed r2 => forall k, k <> name -> r1 !! k = r2 !! k
  | PastEnd, PastEnd => True
  | _, _ => False
  end.
Proof.
  induction toks as [| key | key value rest IH1 IH2] using token_list_ind;
    intros a1 a2 Ha.
  - exact Ha.
  - cbn. destruct (is_help key).
    + intros k Hk. destruct (decide (k = "help"%string)) as [-> | Hne].
      * now rewrite !lookup_insert_eq.
      * rewrite !lookup_insert_ne by done. auto.
    + destruct (value_option key); [exact I | exact Ha].
  - destruct (is_help key) eqn:Hh.
    { rewrite !parseArgs_from_help by done.
      intros k Hk. destruct (decide (k = "help"%string)) as [-> | Hne].
      - now rewrite !lookup_insert_eq.
      - rewrite !lookup_insert_ne by done. auto. }
    destruct (value_option key) as [n |] eqn:Hv.
    + rewrite (parseArgs_from_value key n value rest a1),
        (parseArgs_from_value key n value rest a2) by done.
      apply IH1.
      intros k Hk. destruct (decide (k = n)) as [-> | Hne].
      * now rewrite !lookup_insert_eq.
      * rewrite !lookup_insert_ne by done. auto.
    + rewrite (parseArgs_from_other key (value :: rest) a1),
        (parseArgs_from_other key (value :: rest) a2) by done.
      exact (IH2 a1 a2 Ha).
Qed.

(** What the loop prints is reports, a summary or the read failure. *)
Lemma iteration_loop_events start r c c' out st :
  iteration start r c = (c', out, st) -> forallb is_loop_event out = true.
Proof.
  unfold iteration. destruct r as [now |].
  - destruct (1 <=? seconds (now - last_report c));
      destruct (test_duration_sec <=? seconds (now - start));
      intros H; injection H as <- <- <-; reflexivity.
  - intros H. injection H as <- <- <-. reflexivity.
Qed.

Lemma bench_loop_loop_events start reads : forall c c' out st,
  bench_loop start reads c = (c', out, st) -> forallb is_loop_event out = true.
Proof.
  induction reads as [| r reads IH]; intros c c' out st.
  - cbn. intros H. injection H as <- <- <-. reflexivity.
  - rewrite bench_loop_cons.
    destruct (iteration start r c) as [[c1 out1] st1] eqn:Hit.
    pose proof (iteration_loop_events _ _ _ _ _ _ Hit) as H1.
    destruct st1.
    + destruct (bench_loop start reads c1) as [[c2 out2] st2] eqn:Hl.
      intros H. injection H as <- <- <-.
      rewrite forallb_app, H1. exact (IH _ _ _ _ Hl).
    + intros H. now injection H as <- <- <-.
    + intros H. now injection H as <- <- <-.
Qed.

(** Every way a run of [main] can go. *)
Lemma main_outcome e argv evs x :
  main e argv = (evs, x) ->
  (evs = [] /\ (x = Undefined \/ x = Terminate))
  \/ (evs = [Usage (hd EmptyString argv)] /\ x = Exit 0)
  \/ (evs = [InvalidResolution] /\ x = Exit 1)
  \/ (exists format, evs = [InvalidFormat format] /\ x = Exit 1)
  \/ (exists device,
        evs = [VideoCapture device; OpenFailed device] /\ x = Exit 1
        /\ opens e device = false)
  \/ (exists device width height fps format c out st,
        opens e device = true
        /\ fourccFromString format <> 0
        /\ bench_loop (start_time e) (reads e) (init_counters (start_time e))
           = (c, out, st)
        /\ ((st = Running
             /\ evs = setup_events device width height fps format ++ out
             /\ x = Blocked)
            \/ (st <> Running
                /\ evs = setup_events device width height fps format ++ out ++ [Release]
                /\ x = Exit 0))).
Proof.
  unfold main. destruct (parseArgs argv) as [args |].
  2: { intros H. injection H as <- <-. left. auto. }
  destruct (bool_decide _).
  { intros H. injection H as <- <-. right. left. auto. }
  cbv zeta. destruct (device_of _) as [device | |].
  2, 3: intros H; injection H as <- <-; left; auto.
  destruct (match args !! "resolution"%string with
            | Some res => parseResolution res (640, 480, 30)
            | None => (true, (640, 480, 30))
            end) as [ok [[width height] fps]].
  destruct ok; cbn [negb].
  2: { intros H. injection H as <- <-. right. right. left. auto. }
  destruct (Z.eqb_spec (fourccFromString (default "MJPG"%string (args !! "format"%string))) 0)
    as [Hz | Hnz].
  { intros H. injection H as <- <-. right. right. right. left. eauto. }
  destruct (opens e device) eqn:Hopen; cbn [negb].
  2: { intros H. injection H as <- <-. do 4 right. left. eauto. }
  destruct (bench_loop _ _ _) as [[c out] st] eqn:Hloop.
  intros H. do 5 right.
  exists device, width, height, fps, (default "MJPG"%string (args !! "format"%string)), c, out, st.
  split; [exact Hopen |]. split; [exact Hnz |]. split; [reflexivity |].
  destruct st; injection H as <- <-.
  - left. auto.
  - right. split; [discriminate | auto].
  - right. split; [discriminate | auto].
Qed.

End MainRuns.

Section DeviceArgument.

Implicit Types (s t ws lit rest : string) (v : Z).

Lemma stoi_field t v rest : int_field t v rest -> stoi t = StoiOk v.
Proof.
  intros (ws & lit & -> & Hws & Hlit & Hv & Hrest). unfold stoi.
  assert (Hs : scan_int (ws ++ lit ++ rest) = Some (v, rest))
    by (apply scan_int_iff; exists ws, lit; auto).
  rewrite Hs. unfold in_int.
  destruct (Z.leb_spec INT_MIN v), (Z.leb_spec v INT_MAX); cbn; auto; lia.
Qed.

Lemma stoi_ok_field t v : stoi t = StoiOk v -> exists rest, int_field t v rest.
Proof.
  unfold stoi. destruct (scan_int t) as [[u rest] |] eqn:Hs; [| discriminate].
  unfold in_int.
  destruct (Z.leb_spec INT_MIN u) as [Hlo | Hlo], (Z.leb_spec u INT_MAX) as [Hhi | Hhi];
    cbn; try discriminate.
  intros H. injection H as <-.
  apply scan_int_iff in Hs as (ws & lit & Heq & Hws & Hlit & Hrest).
  exists rest, ws, lit. repeat split; auto.
Qed.

(** An integer field starts with white space, a sign or a digit. *)
Lemma field_no_prefix t v rest :
  int_field t v rest -> String.prefix "/dev/video" t = false.
Proof.
  intros (ws & lit & -> & Hws & Hlit & _).
  destruct ws as [| c ws].
  - rewrite append_nil_l.
    destruct Hlit as [ds Hds | ds Hds | ds Hds]; rewrite ?append_cons;
      try (apply prefix_head_ne; discriminate).
    destruct (is_digits_head _ Hds) as (c & r & -> & Hc).
    rewrite append_cons. apply prefix_head_ne. intros <-. discriminate.
  - rewrite append_cons. apply prefix_head_ne. intros <-.
    cbn in Hws. discriminate.
Qed.

Lemma substring_skip_append p : forall t m,
  String.substring (String.length p) m (p ++ t)%string = String.substring 0 m t.
Proof.
  induction p as [| c p IH]; intros t m.
  - now rewrite append_nil_l.
  - rewrite append_cons. cbn [String.length String.substring]. apply IH.
Qed.

Lemma prefix_split p s :
  String.prefix p s = true -> s = (p ++ substr (String.length p) s)%string.
Proof.
  revert s. induction p as [| a p IH]; intros s.
  - intros _. rewrite append_nil_l. unfold substr. cbn [String.length].
    rewrite Nat.sub_0_r. symmetry. apply substring_all.
  - destruct s as [| b s]; [discriminate |].
    change (String.prefix (String a p) (String b s))
      with (if Ascii.ascii_dec a b then String.prefix p s else false).
    destruct (Ascii.ascii_dec a b) as [<- |]; [| discriminate].
    intros H. rewrite append_cons. f_equal.
    unfold substr in *. cbn [String.length Nat.sub String.substring].
    now apply IH.
Qed.

Lemma device_of_shape s v : device_of s = StoiOk v <-> device_shape s v.
Proof.
  unfold device_of, device_shape. split.
  - destruct (String.prefix "/dev/video" s) eqn:Hp.
    + intros H. apply stoi_ok_field in H as (rest & Hf).
      exists (substr 10 s), rest. split; [right | exact Hf].
      now apply (prefix_split "/dev/video").
    + intros H. apply stoi_ok_field in H as (rest & Hf).
      exists s, rest. split; [now left | exact Hf].
  - intros (t & rest & [-> | ->] & Hf).
    + rewrite (field_no_prefix _ _ _ Hf). now apply (stoi_field _ _ rest).
    + rewrite prefix_video, substr_video. now apply (stoi_field _ _ rest).
Qed.

End DeviceArgument.

(** X4: the options -w/--width, --height and -s/--fps have no effect: a
    run with one of them in front, together with its value, goes exactly
    as the run without. *)
Theorem width_height_fps_ignored :
  forall e program key name value rest,
    In (key, name) value_tokens ->
    In name ["width"; "height"; "fps"]%string ->
    main e (program :: key :: value :: rest) = main e (program :: rest).
Proof.
  intros e program key name value rest Hin Hname.
  destruct (value_tokens_spec _ _ Hin) as [Hh Hv].
  assert (Hp : parseArgs (program :: key :: value :: rest)
               = parseArgs_from rest (<[name := value]> ∅)).
  { unfold parseArgs. cbn [tail]. now apply parseArgs_from_value. }
  assert (Hp' : parseArgs (program :: rest) = parseArgs_from rest ∅) by reflexivity.
  pose proof (parseArgs_from_agree name rest (<[name := value]> ∅) ∅) as Hag.
  rewrite <- Hp, <- Hp' in Hag.
  destruct (parseArgs (program :: key :: value :: rest)) as [r1 |] eqn:E1;
    destruct (parseArgs (program :: rest)) as [r2 |] eqn:E2;
    try (exfalso; apply Hag; intros k Hk; now rewrite lookup_insert_ne).
  - apply (main_agree e _ _ r1 r2 E1 E2); [reflexivity |].
    intros k Hk. apply Hag.
    + intros k' Hk'. now rewrite lookup_insert_ne.
    + intros ->. cbn in Hk, Hname.
      repeat (destruct Hk as [Hk | Hk]; [subst; intuition discriminate |]).
      exact Hk.
  - unfold main. now rewrite E1, E2.
Qed.

Lemma width_height_fps_ignored_witness :
  main {| opens := fun _ => false; start_time := 0; reads := [] |}
       ["camtest"; "-w"; "1920"; "-d"; "1"]%string
  = main {| opens := fun _ => false; start_time := 0; reads := [] |}
         ["camtest"; "-d"; "1"]%string.
Proof.
  apply (width_height_fps_ignored _ _ "-w"%string "width"%string).
  - unfold value_tokens. cbn. tauto.
  - cbn. tauto.
Defined.

(** X5: [main] returns 0 or 1 and nothing else. It returns 1 in three
    ways only, each before any setting is applied or any frame read: the
    resolution error alone, the format error alone, or a device that did
    not open followed by the open error. It returns 0 after the usage
    text alone, or with the release of the device as its last act. *)
Theorem exit_codes :
  forall e argv evs code,
    main e argv = (evs, Exit code) ->
    (code = 0 \/ code = 1)
    /\ (code = 1 ->
        evs = [InvalidResolution]
        \/ (exists format, evs = [InvalidFormat format])
        \/ (exists device,
              evs = [VideoCapture device; OpenFailed device]
              /\ opens e device = false))
    /\ (code = 0 ->
        evs = [Usage (hd EmptyString argv)] \/ last evs = Some Release).
Proof.
  intros e argv evs code H.
  destruct (main_outcome _ _ _ _ H)
    as [(_ & [Hx | Hx])
       | [(-> & Hx)
         | [(-> & Hx)
           | [(format & -> & Hx)
             | [(device & -> & Hx & Hopen)
               | (device & w & h & f & format & c & out & st & Hopen & Hcode & Hloop
                  & [(_ & _ & Hx) | (_ & -> & Hx)])]]]]];
    try discriminate; injection Hx as ->.
  - split; [now left |]. split; [discriminate | now left].
  - split; [now right |]. split; [now left | discriminate].
  - split; [now right |]. split; [right; left; eauto | discriminate].
  - split; [now right |]. split; [right; right; eauto | discriminate].
  - split; [now left |]. split; [discriminate |].
    intros _. right. rewrite !app_assoc. apply last_snoc.
Qed.

Lemma exit_codes_witness : 1 = 0 \/ 1 = 1.
Proof.
  apply (exit_codes {| opens := fun _ => false; start_time := 0; reads := [] |}
           ["camtest"; "-f"; "H264x"]%string [InvalidFormat "H264x"] 1).
  reflexivity.
Defined.

Section Release.

Lemma loop_events_no_release out :
  forallb is_loop_event out = true -> ~ In Release out.
Proof.
  intros H Hin. rewrite forallb_forall in H. specialize (H _ Hin). discriminate.
Qed.

Lemma loop_events_no_set out prop value :
  forallb is_loop_event out = true -> ~ In (CapSet prop value) out.
Proof.
  intros H Hin. rewrite forallb_forall in H. specialize (H _ Hin). discriminate.
Qed.

End Release.

(** X6: the capture device is touched only when it opened: a run that
    applies a setting or releases the device starts by opening a device
    that did open; and a release happens once, as the last act of a run
    that returns 0. *)
Theorem device_discipline :
  forall e argv evs x,
    main e argv = (evs, x) ->
    ((exists prop value, In (CapSet prop value) evs) \/ In Release evs ->
     exists device, hd_error evs = Some (VideoCapture device) /\ opens e device = true)
    /\ (In Release evs ->
        x = Exit 0 /\ exists evs', evs = evs' ++ [Release] /\ ~ In Release evs').
Proof.
  intros e argv evs x H.
  destruct (main_outcome _ _ _ _ H)
    as [(-> & _)
       | [(-> & _)
         | [(-> & _)
           | [(format & -> & _)
             | [(device & -> & _ & _)
               | (device & w & h & f & format & c & out & st & Hopen & _ & Hloop
                  & Hend)]]]]].
  1-5: split;
        [ intros [(p & v & Hin) | Hin]; cbn in Hin; exfalso;
          repeat (destruct Hin as [Hin | Hin]; [discriminate |]); exact Hin
        | intros Hin; cbn in Hin; exfalso;
          repeat (destruct Hin as [Hin | Hin]; [discriminate |]); exact Hin ].
  pose proof (bench_loop_loop_events _ _ _ _ _ _ Hloop) as Hev.
  split.
  - intros _. exists device. split; [| exact Hopen].
    destruct Hend as [(_ & -> & _) | (_ & -> & _)]; reflexivity.
  - intros Hin. destruct Hend as [(_ & -> & _) | (_ & -> & ->)].
    + exfalso. apply in_app_or in Hin as [Hin | Hin].
      * cbn in Hin. repeat (destruct Hin as [Hin | Hin]; [discriminate |]). exact Hin.
      * now apply (loop_events_no_release out).
    + split; [reflexivity |].
      exists (setup_events device w h f format ++ out).
      split; [now rewrite app_assoc |].
      intros Hin'. apply in_app_or in Hin' as [Hin' | Hin'].
      * cbn in Hin'. repeat (destruct Hin' as [Hin' | Hin']; [discriminate |]).
        exact Hin'.
      * now apply (loop_events_no_release out).
Qed.

Lemma device_discipline_witness :
  exists device,
    hd_error (fst (main {| opens := fun d => d =? 2; start_time := 0;
                           reads := [Frame 1000; NoFrame] |}
                        ["camtest"; "-d"; "2"]%string))
    = Some (VideoCapture device)
    /\ (device =? 2) = true.
Proof.
  apply (proj1 (device_discipline
                  {| opens := fun d => d =? 2; start_time := 0;
                     reads := [Frame 1000; NoFrame] |}
                  ["camtest"; "-d"; "2"]%string _ _ (surjective_pairing _))).
  right. vm_compute. tauto.
Defined.

(** X7: when the command line is accepted and the device opens, the run
    starts by opening the device, setting width, height, format code and
    frame rate in this order, and printing the settings: the width, height
    and rate are the three integers of the resolution argument, or 640,
    480 and 30 without one; the format is the format argument, or MJPG
    without one; the device is 0 without a device argument. *)
Theorem applied_configuration :
  forall e argv args device w h f,
    parseArgs argv = Parsed args ->
    args !! "help"%string = None ->
    device_shape (default "0"%string (args !! "device"%string)) device ->
    match args !! "resolution"%string with
    | Some res => resolution_shape res w h f
    | None => (w, h, f) = (640, 480, 30)
    end ->
    fourccFromString (default "MJPG"%string (args !! "format"%string)) <> 0 ->
    opens e device = true ->
    exists out x,
      main e argv
      = (setup_events device w h f (default "MJPG"%string (args !! "format"%string))
           ++ out, x).
Proof.
  intros e argv args device w h f Hp Hh Hdev Hres Hfmt Hopen.
  apply device_of_shape in Hdev.
  unfold main. rewrite Hp.
  rewrite bool_decide_eq_false_2 by (rewrite Hh; apply is_Some_None).
  cbv zeta. rewrite Hdev.
  assert (Hcfg : match args !! "resolution"%string with
                 | Some res => parseResolution res (640, 480, 30)
                 | None => (true, (640, 480, 30))
                 end = (true, (w, h, f))).
  { destruct (args !! "resolution"%string) as [res |].
    - now apply parseResolution_iff.
    - now injection Hres as -> -> ->. }
  rewrite Hcfg. cbn [negb].
  destruct (Z.eqb_spec (fourccFromString (default "MJPG"%string (args !! "format"%string))) 0)
    as [Hz | _]; [contradiction |].
  rewrite Hopen. cbn [negb].
  destruct (bench_loop _ _ _) as [[c out] []].
  - now exists out, Blocked.
  - now exists (out ++ [Release]), (Exit 0).
  - now exists (out ++ [Release]), (Exit 0).
Qed.

Lemma applied_configuration_witness :
  exists out x,
    main {| opens := fun _ => true; start_time := 0; reads := [NoFrame] |}
         ["camtest"; "--format"; "YUYV"]%string
    = (setup_events 0 640 480 30 "YUYV" ++ out, x).
Proof.
  pose proof (applied_configuration
                {| opens := fun _ => true; start_time := 0; reads := [NoFrame] |}
                ["camtest"; "--format"; "YUYV"]%string
                (<["format"%string := "YUYV"%string]> ∅) 0 640 480 30 eq_refl) as H.
  rewrite lookup_insert_eq in H. rewrite !lookup_insert_ne, !lookup_empty in H by done.
  apply H.
  - reflexivity.
  - apply device_of_shape. reflexivity.
  - reflexivity.
  - discriminate.
  - reflexivity.
Defined.

(** X8: the device argument is accepted exactly when it is an integer
    field that fits an [int], bare or after [/dev/video]: white space
    before the number is skipped and whatever follows its digits is
    ignored. *)
Theorem device_argument :
  forall s v, device_of s = StoiOk v <-> device_shape s v.
Proof. apply device_of_shape. Qed.

(** X9: a device argument that is no such field ends the program through
    the uncaught exception of [std::stoi], with nothing printed: neither
    the resolution nor the format has been looked at yet. *)
Theorem bad_device_terminates :
  forall e argv args,
    parseArgs argv = Parsed args ->
    args !! "help"%string = None ->
    (forall v, ~ device_shape (default "0"%string (args !! "device"%string)) v) ->
    main e argv = ([], Terminate).
Proof.
  intros e argv args Hp Hh Hdev. unfold main. rewrite Hp.
  rewrite bool_decide_eq_false_2 by (rewrite Hh; apply is_Some_None).
  cbv zeta.
  destruct (device_of _) as [v | |] eqn:Hd; try reflexivity.
  exfalso. apply (Hdev v). now apply device_of_shape.
Qed.

Lemma bad_device_terminates_witness :
  main {| opens := fun _ => true; start_time := 0; reads := [] |}
       ["camtest"; "-d"; "/dev/video"; "-r"; "bogus"; "-f"; "toolong"]%string
  = ([], Terminate).
Proof.
  apply (bad_device_terminates _ _
           (<["format"%string := "toolong"%string]>
              (<["resolution"%string := "bogus"%string]>
                 (<["device"%string := "/dev/video"%string]> ∅)))).
  - reflexivity.
  - now rewrite !lookup_insert_ne.
  - rewrite !lookup_insert_ne by done. rewrite lookup_insert_eq.
    intros v Hv. apply device_of_shape in Hv. discriminate.
Defined.

(* ===================================================================== *)
(** * More on the benchmark loop *)
(* ===================================================================== *)

Section LoopMore.

Implicit Types (c : counters) (r : read_result) (out : list event).
Implicit Types (st : loop_status) (reads : list read_result).

Lemma reported_app out1 out2 : reported (out1 ++ out2) = reported out1 + reported out2.
Proof.
  induction out1 as [| ev out1 IH]; [reflexivity |].
  destruct ev; cbn [app reported]; lia.
Qed.

(** Whole seconds against nanoseconds. *)
Lemma seconds_threshold k d :
  0 < k -> (k <= seconds d <-> k * 1000000000 <= d).
Proof.
  intros Hk. unfold seconds. split.
  - intros H. destruct (Z.lt_ge_cases d (k * 1000000000)) as [Hlt | Hge]; [| exact Hge].
    exfalso. destruct (Z.lt_ge_cases d 0) as [Hneg | Hpos].
    + assert (d ÷ 1000000000 <= 0) by (apply Z.quot_le_upper_bound; lia). lia.
    + assert (d ÷ 1000000000 < k) by (apply Z.quot_lt_upper_bound; lia). lia.
  - intros H. apply Z.quot_le_lower_bound; lia.
Qed.

(** One frame: it is counted once, in the report or in the counter. *)
Lemma iteration_reported start now c c' out st :
  iteration start (Frame now) c = (c', out, st) ->
  INT_MIN <= frames_last_second c < INT_MAX ->
  reported out + frames_last_second c' = frames_last_second c + 1.
Proof.
  intros H Hl. unfold iteration in H. rewrite (incr_small _ Hl) in H.
  destruct (1 <=? seconds (now - last_report c));
    destruct (test_duration_sec <=? seconds (now - start));
    injection H as <- <- <-; cbn; lia.
Qed.

Lemma bench_loop_reported start reads : forall c c' out st,
  bench_loop start reads c = (c', out, st) ->
  0 <= frames_last_second c <= total_frames c ->
  total_frames c + Z.of_nat (length reads) <= INT_MAX ->
  reported out + frames_last_second c'
  = frames_last_second c + (total_frames c' - total_frames c).
Proof.
  induction reads as [| r reads IH]; intros c c' out st Hrun Hinv Hmax.
  - cbn in Hrun. injection Hrun as <- <- <-. cbn. lia.
  - cbn [length] in Hmax. rewrite Nat2Z.inj_succ in Hmax.
    rewrite bench_loop_cons in Hrun. destruct r as [now |].
    + destruct (iteration_frame start now c)
        as (c1 & out1 & st1 & Hit & Htot & _ & Hcase & _);
        [unfold INT_MIN in *; lia | unfold INT_MIN in *; lia |].
      pose proof (iteration_reported _ _ _ _ _ _ Hit) as Hrep.
      rewrite Hit in Hrun.
      assert (Hinv1 : 0 <= frames_last_second c1 <= total_frames c1).
      { destruct Hcase as [(_ & _ & _ & -> & _) | (_ & _ & -> & _)]; lia. }
      destruct st1.
      * destruct (bench_loop start reads c1) as [[c2 out2] st2] eqn:Hl.
        injection Hrun as <- <- <-.
        pose proof (IH _ _ _ _ Hl Hinv1). rewrite reported_app.
        unfold INT_MIN in *. lia.
      * injection Hrun as <- <- <-. unfold INT_MIN in *. lia.
      * injection Hrun as <- <- <-. unfold INT_MIN in *. lia.
    + cbn in Hrun. injection Hrun as <- <- <-. cbn. lia.
Qed.

(** A loop that has ended reads no further. *)
Lemma bench_loop_stopped start reads : forall more c c' out st,
  bench_loop start reads c = (c', out, st) ->
  st <> Running ->
  bench_loop start (reads ++ more) c = (c', out, st).
Proof.
  induction reads as [| r reads IH]; intros more c c' out st Hrun Hst.
  - cbn in Hrun. injection Hrun as <- <- <-. contradiction.
  - rewrite <- app_comm_cons, bench_loop_cons in *.
    destruct (iteration start r c) as [[c1 out1] []]; try exact Hrun.
    destruct (bench_loop start reads c1) as [[c2 out2] st2] eqn:Hl.
    injection Hrun as <- <- <-.
    now rewrite (IH more _ _ _ _ Hl Hst).
Qed.

(** The summary of a completed loop. *)
Lemma iteration_done start r c c' out :
  iteration start r c = (c', out, Done) ->
  exists out1 t,
    out = out1 ++ [Captured (total_frames c') t
                     (PrimFloat.div (double_of_Z (total_frames c')) (double_of_Z t))]
    /\ test_duration_sec <= t
    /\ forallb quiet out1 = true.
Proof.
  unfold iteration. destruct r as [now |]; [| discriminate].
  destruct (1 <=? seconds (now - last_report c));
    destruct (Z.leb_spec test_duration_sec (seconds (now - start))) as [Hd | Hd];
    intros H; try discriminate; injection H as <- <-.
  - now exists [CurrentFPS (incr (frames_last_second c))], (seconds (now - start)).
  - now exists [], (seconds (now - start)).
Qed.

Lemma bench_loop_done start reads : forall c c' out,
  bench_loop start reads c = (c', out, Done) ->
  exists out1 t,
    out = out1 ++ [Captured (total_frames c') t
                     (PrimFloat.div (double_of_Z (total_frames c')) (double_of_Z t))]
    /\ test_duration_sec <= t
    /\ forallb quiet out1 = true.
Proof.
  induction reads as [| r reads IH]; intros c c' out Hrun.
  - discriminate.
  - rewrite bench_loop_cons in Hrun.
    destruct (iteration start r c) as [[c1 out1] st1] eqn:Hit.
    destruct st1.
    + destruct (bench_loop start reads c1) as [[c2 out2] st2] eqn:Hl.
      injection Hrun as <- <- ->.
      destruct (IH _ _ _ Hl) as (o & t & -> & Ht & Hq).
      pose proof (iteration_out _ _ _ _ _ _ Hit) as Hq1. cbv iota in Hq1.
      exists (out1 ++ o), t. rewrite forallb_app, Hq1, Hq.
      now rewrite <- app_assoc.
    + injection Hrun as <- <-. now apply (iteration_done start r c).
    + discriminate.
Qed.

End LoopMore.

(** X10: in a run of fewer than [INT_MAX] reads every frame counted in the
    running total is accounted for once: by one of the per-second reports
    printed so far, or by the per-interval counter. *)
Theorem frames_accounted_for :
  forall start reads c out st,
    bench_loop start reads (init_counters start) = (c, out, st) ->
    Z.of_nat (length reads) <= INT_MAX ->
    reported out + frames_last_second c = total_frames c.
Proof.
  intros start reads c out st Hrun Hlen.
  pose proof (bench_loop_reported _ _ _ _ _ _ Hrun) as H.
  cbn [init_counters total_frames frames_last_second] in H. lia.
Qed.

Lemma frames_accounted_for_witness :
  reported [CurrentFPS 3; CurrentFPS 2] + 1 = 6.
Proof.
  apply (frames_accounted_for 0
           [Frame 400000000; Frame 800000000; Frame 1200000000;
            Frame 1700000000; Frame 2300000000; Frame 2500000000]
           {| total_frames := 6; frames_last_second := 1; last_report := 2300000000 |}
           [CurrentFPS 3; CurrentFPS 2] Running).
  - reflexivity.
  - cbn. unfold INT_MAX. lia.
Defined.

(** X11: once the loop has ended, by the summary or by a failed read, it
    reads nothing more: whatever the device would deliver afterwards
    changes neither the counters nor the output. *)
Theorem ended_loop_reads_no_further :
  forall start reads more c c' out st,
    bench_loop start reads c = (c', out, st) ->
    st <> Running ->
    bench_loop start (reads ++ more) c = (c', out, st).
Proof. intros start reads more. apply bench_loop_stopped. Qed.

Lemma ended_loop_reads_no_further_witness :
  bench_loop 0 ([Frame 700000000; NoFrame] ++ [Frame 900000000; Frame 6000000000])
             (init_counters 0)
  = ({| total_frames := 1; frames_last_second := 1; last_report := 0 |},
     [CaptureFailed], Failed).
Proof.
  apply ended_loop_reads_no_further.
  - reflexivity.
  - discriminate.
Defined.

(** X12: a summary is printed only by a loop that completes, once, as the
    last thing the loop prints; its frame count is the running total, its
    seconds are at least the 5 of the test duration, so that the average
    never divides by zero, and its average is the quotient of the two in
    [double]. *)
Theorem summary_is_well_formed :
  forall start reads c c' out st n t a,
    bench_loop start reads c = (c', out, st) ->
    In (Captured n t a) out ->
    st = Done
    /\ n = total_frames c'
    /\ test_duration_sec <= t
    /\ a = PrimFloat.div (double_of_Z n) (double_of_Z t)
    /\ exists out1, out = out1 ++ [Captured n t a] /\ forallb quiet out1 = true.
Proof.
  intros start reads c c' out st n t a Hrun Hin.
  pose proof (bench_loop_out _ _ _ _ _ _ Hrun) as Hout.
  destruct st.
  - exfalso. now apply (quiet_no_captured _ _ _ _ Hout Hin).
  - destruct (bench_loop_done _ _ _ _ _ Hrun) as (out1 & t' & -> & Ht & Hq).
    apply in_app_or in Hin as [Hin | Hin].
    + exfalso. now apply (quiet_no_captured _ _ _ _ Hq Hin).
    + destruct Hin as [Heq | []]. injection Heq as <- <- <-.
      repeat split; auto. now exists out1.
  - exfalso. destruct Hout as (out1 & -> & Hq).
    apply in_app_or in Hin as [Hin | Hin].
    + now apply (quiet_no_captured _ _ _ _ Hq Hin).
    + destruct Hin as [Heq | []]. discriminate.
Qed.

Lemma summary_is_well_formed_witness :
  test_duration_sec <= 6.
Proof.
  apply (summary_is_well_formed 0 [Frame 3000000000; Frame 6200000000]
           (init_counters 0)
           {| total_frames := 2; frames_last_second := 0; last_report := 6200000000 |}
           [CurrentFPS 1; CurrentFPS 1;
            Captured 2 6 (PrimFloat.div (double_of_Z 2) (double_of_Z 6))]
           Done 2 6 (PrimFloat.div (double_of_Z 2) (double_of_Z 6))).
  - reflexivity.
  - cbn. tauto.
Defined.

(** X13: the loop's two tests are on whole seconds truncated from the
    clock's nanoseconds: an iteration that reads a frame ends the loop
    exactly when the frame comes 5 000 000 000 ns or more after the start,
    and reports exactly when it comes 1 000 000 000 ns or more after the
    last report. *)
Theorem nanosecond_thresholds :
  forall start now c,
    (snd (iteration start (Frame now) c) = Done
     <-> start + 5000000000 <= now)
    /\ (snd (iteration start (Frame now) c) = Running
        <-> now < start + 5000000000)
    /\ (reports (snd (fst (iteration start (Frame now) c))) = 1
        <-> last_report c + 1000000000 <= now)
    /\ (reports (snd (fst (iteration start (Frame now) c))) = 0
        <-> now < last_report c + 1000000000).
Proof.
  intros start now c.
  pose proof (seconds_threshold 5 (now - start) ltac:(lia)) as H5.
  pose proof (seconds_threshold 1 (now - last_report c) ltac:(lia)) as H1.
  unfold iteration, test_duration_sec.
  destruct (Z.leb_spec 1 (seconds (now - last_report c))) as [Hr | Hr];
    destruct (Z.leb_spec 5 (seconds (now - start))) as [Hd | Hd];
    cbn [fst snd]; rewrite ?reports_app;
    change (reports []) with 0; change (reports [CurrentFPS _]) with 1;
    change (reports [Captured _ _ _]) with 0;
    repeat split; intros; try discriminate; try lia.
Qed.

(* ===================================================================== *)
(** * The packed format code *)
(* ===================================================================== *)

Section FourccMore.

Lemma wrap32_inj a b :
  0 <= a < 2 ^ 32 -> 0 <= b < 2 ^ 32 -> wrap32 a = wrap32 b -> a = b.
Proof.
  unfold wrap32. intros Ha Hb H.
  assert (Hmod : forall z, 0 <= z < 2 ^ 32 ->
                 (z + 2 ^ 31) mod 2 ^ 32
                 = if z <? 2 ^ 31 then z + 2 ^ 31 else z - 2 ^ 31).
  { intros z Hz. destruct (Z.ltb_spec z (2 ^ 31)).
    - apply Z.mod_small. lia.
    - symmetry. apply (Z.mod_unique _ _ 1); lia. }
  rewrite (Hmod a Ha), (Hmod b Hb) in H.
  destruct (Z.ltb_spec a (2 ^ 31)), (Z.ltb_spec b (2 ^ 31)); lia.
Qed.

Lemma byte_of_inj c1 c2 : byte_of c1 = byte_of c2 -> c1 = c2.
Proof.
  unfold byte_of. intros H.
  rewrite <- (ascii_N_embedding c1), <- (ascii_N_embedding c2).
  f_equal. lia.
Qed.

Lemma fourcc_inj a1 a2 a3 a4 b1 b2 b3 b4 :
  fourcc a1 a2 a3 a4 = fourcc b1 b2 b3 b4 ->
  a1 = b1 /\ a2 = b2 /\ a3 = b3 /\ a4 = b4.
Proof.
  rewrite !fourcc_sum. intros H.
  pose proof (byte_of_range a1). pose proof (byte_of_range a2).
  pose proof (byte_of_range a3). pose proof (byte_of_range a4).
  pose proof (byte_of_range b1). pose proof (byte_of_range b2).
  pose proof (byte_of_range b3). pose proof (byte_of_range b4).
  apply wrap32_inj in H; [| lia | lia].
  change (2 ^ 8) with 256 in H. change (2 ^ 16) with 65536 in H.
  change (2 ^ 24) with 16777216 in H.
  repeat split; apply byte_of_inj; lia.
Qed.

End FourccMore.

(** X14: on strings of four characters the encoder loses nothing: two
    formats with the same packed code are the same string (with the
    capture library's packing as modelled in [fourcc]). *)
Theorem format_code_injective :
  forall format1 format2,
    String.length format1 = 4%nat ->
    String.length format2 = 4%nat ->
    fourccFromString format1 = fourccFromString format2 ->
    format1 = format2.
Proof.
  intros format1 format2 H1 H2 H.
  destruct (string_length_4 _ H1) as (a1 & a2 & a3 & a4 & ->).
  destruct (string_length_4 _ H2) as (b1 & b2 & b3 & b4 & ->).
  unfold fourccFromString in H. cbn in H.
  apply fourcc_inj in H as (-> & -> & -> & ->). reflexivity.
Qed.

Lemma format_code_injective_witness : "MJPG"%string = "MJPG"%string.
Proof.
  apply (format_code_injective "MJPG" "MJPG"); reflexivity.
Defined.

(* ===================================================================== *)
(** * Printing and reading integers *)
(* ===================================================================== *)

Section Printing.

Implicit Types (n d : Z) (ds acc : string).

Lemma digit_char_spec d :
  0 <= d <= 9 -> isdigit (digit_char d) = true /\ digit_val (digit_char d) = d.
Proof.
  intros H.
  assert (Hd : d = 0 \/ d = 1 \/ d = 2 \/ d = 3 \/ d = 4
               \/ d = 5 \/ d = 6 \/ d = 7 \/ d = 8 \/ d = 9) by lia.
  repeat (destruct Hd as [-> | Hd]; [split; reflexivity |]).
  subst d. split; reflexivity.
Qed.

Lemma append_assoc ds1 ds2 ds3 :
  ((ds1 ++ ds2) ++ ds3)%string = (ds1 ++ ds2 ++ ds3)%string.
Proof.
  induction ds1 as [| c r IH]; rewrite ?append_cons, ?append_nil_l; congruence.
Qed.

Lemma all_chars_app p ds1 ds2 :
  all_chars p (ds1 ++ ds2) = all_chars p ds1 && all_chars p ds2.
Proof.
  induction ds1 as [| c r IH]; rewrite ?append_cons, ?append_nil_l; [reflexivity |].
  cbn [all_chars]. rewrite IH. apply andb_assoc.
Qed.

Lemma length_append ds1 ds2 :
  String.length (ds1 ++ ds2) = (String.length ds1 + String.length ds2)%nat.
Proof.
  induction ds1 as [| c r IH]; rewrite ?append_cons, ?append_nil_l; [reflexivity |].
  cbn [String.length]. now rewrite IH.
Qed.

Lemma decimal_value_app ds1 ds2 :
  decimal_value (ds1 ++ ds2)
  = decimal_value ds1 * 10 ^ Z.of_nat (String.length ds2) + decimal_value ds2.
Proof.
  induction ds1 as [| c r IH]; rewrite ?append_cons, ?append_nil_l; [cbn; lia |].
  cbn [decimal_value]. rewrite IH, length_append, Nat2Z.inj_add, Z.pow_add_r by lia.
  ring.
Qed.

(** With enough fuel the digits of [n] are put in front of [acc]. *)
Lemma show_digits_spec k : forall n acc,
  0 <= n < 2 ^ (Z.of_nat k + 1) ->
  exists ds,
    show_digits (S k) n acc = (ds ++ acc)%string
    /\ is_digits ds
    /\ decimal_value ds = n.
Proof.
  induction k as [| k IH]; intros n acc Hn.
  - change (2 ^ (Z.of_nat 0 + 1)) with 2 in Hn.
    exists (String (digit_char (n mod 10)) EmptyString).
    destruct (digit_char_spec (n mod 10)) as [Hd Hv];
      [pose proof (Z.mod_pos_bound n 10); lia |].
    cbn [show_digits]. destruct (Z.ltb_spec n 10); [| lia].
    split; [reflexivity |]. split.
    + split; [discriminate |]. cbn. now rewrite Hd.
    + cbn. rewrite Hv, Z.mod_small by lia. lia.
  - destruct (digit_char_spec (n mod 10)) as [Hd Hv];
      [pose proof (Z.mod_pos_bound n 10); lia |].
    change (show_digits (S (S k)) n acc)
      with (if n <? 10 then String (digit_char (n mod 10)) acc
            else show_digits (S k) (n / 10) (String (digit_char (n mod 10)) acc)).
    destruct (Z.ltb_spec n 10) as [Hlt | Hge].
    + exists (String (digit_char (n mod 10)) EmptyString).
      split; [reflexivity |]. split.
      * split; [discriminate |]. cbn. now rewrite Hd.
      * cbn. rewrite Hv, Z.mod_small by lia. lia.
    + assert (Hdiv : 0 <= n / 10 < 2 ^ (Z.of_nat k + 1)).
      { rewrite Nat2Z.inj_succ in Hn.
        replace (Z.succ (Z.of_nat k) + 1) with (Z.succ (Z.of_nat k + 1)) in Hn by lia.
        rewrite Z.pow_succ_r in Hn by lia.
        split; [apply Z.div_pos; lia |].
        apply Z.div_lt_upper_bound; lia. }
      destruct (IH (n / 10) (String (digit_char (n mod 10)) acc) Hdiv)
        as (ds & Heq & [Hne Hds] & Hval).
      exists (ds ++ String (digit_char (n mod 10)) EmptyString)%string.
      rewrite Heq, append_assoc, append_cons, append_nil_l.
      split; [reflexivity |]. split.
      * split.
        -- destruct ds; [congruence | rewrite append_cons; discriminate].
        -- rewrite all_chars_app, Hds. cbn. now rewrite Hd.
      * rewrite decimal_value_app, Hval. cbn [String.length decimal_value].
        rewrite Hv. change (10 ^ Z.of_nat 1) with 10. change (10 ^ Z.of_nat 0) with 1.
        pose proof (Z.div_mod n 10 ltac:(lia)). lia.
Qed.

Lemma show_nat_spec n :
  0 <= n -> is_digits (show_nat n) /\ decimal_value (show_nat n) = n.
Proof.
  intros Hn. unfold show_nat.
  destruct (show_digits_spec (Z.to_nat (Z.log2 n)) n EmptyString)
    as (ds & Heq & Hds & Hval).
  - rewrite Z2Nat.id by apply Z.log2_nonneg.
    destruct (Z.eq_dec n 0) as [-> | Hnz]; [cbn; lia |].
    pose proof (Z.log2_spec n ltac:(lia)). lia.
  - rewrite Heq, append_nil_r. auto.
Qed.

(** What is printed for an integer is an integer literal of that value. *)
Lemma show_int_literal n : int_literal (show_int n) n.
Proof.
  unfold show_int. destruct (Z.ltb_spec n 0) as [Hneg | Hpos].
  - destruct (show_nat_spec (- n)) as [Hds Hval]; [lia |].
    replace n with (- decimal_value (show_nat (- n))) at 2 by lia.
    now constructor.
  - destruct (show_nat_spec n Hpos) as [Hds Hval].
    rewrite <- Hval at 2. now constructor.
Qed.

Lemma int_field_show n rest :
  INT_MIN <= n <= INT_MAX ->
  next_not_digit rest ->
  int_field (show_int n ++ rest) n rest.
Proof.
  intros Hn Hrest. exists EmptyString, (show_int n).
  rewrite append_nil_l. repeat split; auto; try lia. apply show_int_literal.
Qed.

End Printing.

(** X15: printing and decoding a resolution round-trips: for any three
    [int] values, also zero or negative ones, the decoder accepts the text
    [W x H @ F] written with their decimal representations as the program
    prints integers, and hands back the three values. *)
Theorem resolution_round_trip :
  forall w h f init,
    INT_MIN <= w <= INT_MAX ->
    INT_MIN <= h <= INT_MAX ->
    INT_MIN <= f <= INT_MAX ->
    parseResolution
      (show_int w ++ String "x" (show_int h ++ String "@" (show_int f)))%string init
    = (true, (w, h, f)).
Proof.
  intros w h f init Hw Hh Hf. apply parseResolution_iff.
  exists (String "x" (show_int h ++ String "@" (show_int f)))%string,
    (show_int h ++ String "@" (show_int f))%string,
    (String "@" (show_int f)), (show_int f), EmptyString.
  split; [apply int_field_show; [exact Hw | reflexivity] |].
  split; [exists EmptyString; now rewrite append_nil_l |].
  split; [apply int_field_show; [exact Hh | reflexivity] |].
  split; [exists EmptyString; now rewrite append_nil_l |].
  rewrite <- (append_nil_r (show_int f)) at 1.
  apply int_field_show; [exact Hf | exact I].
Qed.

Lemma resolution_round_trip_witness :
  parseResolution (show_int 1280 ++ String "x" (show_int 720 ++ String "@" (show_int 60)))%string
                  (640, 480, 30)
  = (true, (1280, 720, 60)).
Proof.
  apply resolution_round_trip; unfold INT_MIN, INT_MAX; lia.
Defined.

(** X16: printing and reading a device identifier round-trips: for any
    [int], the decimal text the program prints for it, bare or after
    [/dev/video], is read back as that identifier. *)
Theorem device_round_trip :
  forall n,
    INT_MIN <= n <= INT_MAX ->
    device_of (show_int n) = StoiOk n
    /\ device_of ("/dev/video" ++ show_int n)%string = StoiOk n.
Proof.
  intros n Hn.
  assert (Hf : int_field (show_int n) n EmptyString).
  { rewrite <- (append_nil_r (show_int n)) at 1.
    apply int_field_show; [exact Hn | exact I]. }
  split; apply device_of_shape; exists (show_int n), EmptyString; auto.
Qed.

Lemma device_round_trip_witness :
  device_of (show_int 12) = StoiOk 12
  /\ device_of ("/dev/video" ++ show_int 12)%string = StoiOk 12.
Proof.
  apply device_round_trip. unfold INT_MIN, INT_MAX. lia.
Defined.

Section LoopCounts.

Implicit Types (c : counters) (out : list event) (reads : list read_result).

(** The report of an iteration counts the frame just read. *)
Lemma iteration_report_value start now c c' out st n :
  iteration start (Frame now) c = (c', out, st) ->
  INT_MIN <= frames_last_second c < INT_MAX ->
  In (CurrentFPS n) out ->
  n = frames_last_second c + 1.
Proof.
  intros H Hl. unfold iteration in H. rewrite (incr_small _ Hl) in H.
  destruct (1 <=? seconds (now - last_report c));
    destruct (test_duration_sec <=? seconds (now - start));
    injection H as <- <- <-; cbn; intros Hin;
    repeat (destruct Hin as [Hin | Hin]; [congruence |]); contradiction.
Qed.

(** The running total is the number of frames read before the loop ended. *)
Lemma bench_loop_total start reads : forall c c' out st,
  bench_loop start reads c = (c', out, st) ->
  INT_MIN <= total_frames c ->
  total_frames c + Z.of_nat (length reads) <= INT_MAX ->
  exists times rest,
    total_frames c' = total_frames c + Z.of_nat (length times)
    /\ match st with
       | Running => reads = map Frame times
       | Failed => reads = map Frame times ++ NoFrame :: rest
       | Done => reads = map Frame times ++ rest
       end.
Proof.
  induction reads as [| r reads IH]; intros c c' out st Hrun Hmin Hmax.
  - cbn in Hrun. injection Hrun as <- <- <-. exists [], []. cbn. split; [lia | reflexivity].
  - cbn [length] in Hmax. rewrite Nat2Z.inj_succ in Hmax.
    rewrite bench_loop_cons in Hrun. destruct r as [now |].
    + destruct (iteration start (Frame now) c) as [[c1 out1] st1] eqn:Hit.
      assert (Htot : total_frames c1 = total_frames c + 1).
      { unfold iteration in Hit. rewrite (incr_small (total_frames c)) in Hit by lia.
        destruct (1 <=? seconds (now - last_report c));
          destruct (test_duration_sec <=? seconds (now - start));
          injection Hit as <- <- <-; reflexivity. }
      destruct st1.
      * destruct (bench_loop start reads c1) as [[c2 out2] st2] eqn:Hl.
        injection Hrun as <- <- <-.
        destruct (IH _ _ _ _ Hl) as (times & rest & Ht & Hshape); [lia | lia |].
        exists (now :: times), rest. cbn [length map]. rewrite Nat2Z.inj_succ.
        split; [lia |]. destruct st2; rewrite Hshape; reflexivity.
      * injection Hrun as <- <- <-. exists [now], reads. cbn. split; [lia | reflexivity].
      * pose proof (iteration_out _ _ _ _ _ _ Hit) as (_ & _ & Hr). discriminate.
    + cbn in Hrun. injection Hrun as <- <- <-. exists [], reads. cbn.
      split; [lia | reflexivity].
Qed.

Lemma bench_loop_report_values start reads : forall c c' out st n,
  bench_loop start reads c = (c', out, st) ->
  0 <= frames_last_second c <= total_frames c ->
  total_frames c + Z.of_nat (length reads) <= INT_MAX ->
  In (CurrentFPS n) out ->
  1 <= n <= total_frames c'.
Proof.
  induction reads as [| r reads IH]; intros c c' out st n Hrun Hinv Hmax Hin.
  - cbn in Hrun. injection Hrun as <- <- <-. contradiction.
  - cbn [length] in Hmax. rewrite Nat2Z.inj_succ in Hmax.
    rewrite bench_loop_cons in Hrun. destruct r as [now |].
    + destruct (iteration_frame start now c)
        as (c1 & out1 & st1 & Hit & Htot & _ & Hcase & _);
        [unfold INT_MIN in *; lia | unfold INT_MIN in *; lia |].
      assert (Hval : In (CurrentFPS n) out1 -> n = frames_last_second c + 1).
      { apply (iteration_report_value _ _ _ _ _ _ _ Hit). unfold INT_MIN. lia. }
      rewrite Hit in Hrun.
      assert (Hinv1 : 0 <= frames_last_second c1 <= total_frames c1).
      { destruct Hcase as [(_ & _ & _ & -> & _) | (_ & _ & -> & _)]; lia. }
      destruct st1.
      * destruct (bench_loop start reads c1) as [[c2 out2] st2] eqn:Hl.
        injection Hrun as <- <- <-.
        apply in_app_or in Hin as [Hin | Hin].
        -- destruct (bench_loop_total _ _ _ _ _ _ Hl) as (times & rest & Ht & _);
             [unfold INT_MIN; lia | lia |].
           specialize (Hval Hin). lia.
        -- apply (IH _ _ _ _ _ Hl Hinv1); [lia | exact Hin].
      * injection Hrun as <- <- <-. specialize (Hval Hin). lia.
      * injection Hrun as <- <- <-. specialize (Hval Hin). lia.
    + cbn in Hrun. injection Hrun as <- <- <-.
      destruct Hin as [Hin | []]. discriminate.
Qed.

End LoopCounts.

(** X17: a per-second report is never zero: it is printed in an iteration
    that has just read a frame and counts that frame, so its value is at
    least 1 and at most the running total. *)
Theorem report_counts_a_frame :
  forall start reads c out st n,
    bench_loop start reads (init_counters start) = (c, out, st) ->
    Z.of_nat (length reads) <= INT_MAX ->
    In (CurrentFPS n) out ->
    1 <= n <= total_frames c.
Proof.
  intros start reads c out st n Hrun Hlen Hin.
  apply (bench_loop_report_values _ _ _ _ _ _ _ Hrun); cbn; try lia. exact Hin.
Qed.

Lemma report_counts_a_frame_witness : 1 <= 1 <= 2.
Proof.
  apply (report_counts_a_frame 0 [Frame 3000000000; Frame 3500000000]
           {| total_frames := 2; frames_last_second := 1; last_report := 3000000000 |}
           [CurrentFPS 1] Running 1).
  - reflexivity.
  - cbn. unfold INT_MAX. lia.
  - cbn. tauto.
Defined.

Section LoopConsumed.

Implicit Types (c : counters) (out : list event) (reads : list read_result).

(** The reads the loop has consumed when it ends, and its running total:
    frames that came within the test duration, then nothing more, a failed
    read, or the frame that completed the test duration. *)
Lemma bench_loop_consumed start reads : forall c c' out st,
  bench_loop start reads c = (c', out, st) ->
  INT_MIN <= total_frames c ->
  total_frames c + Z.of_nat (length reads) <= INT_MAX ->
  exists times rest,
    total_frames c' = total_frames c + Z.of_nat (length times)
    /\ match st with
       | Running =>
           reads = map Frame times
           /\ Forall (fun t => seconds (t - start) < test_duration_sec) times
       | Failed =>
           reads = map Frame times ++ NoFrame :: rest
           /\ Forall (fun t => seconds (t - start) < test_duration_sec) times
       | Done =>
           reads = map Frame times ++ rest
           /\ exists earlier now,
               times = earlier ++ [now]
               /\ Forall (fun t => seconds (t - start) < test_duration_sec) earlier
               /\ test_duration_sec <= seconds (now - start)
       end.
Proof.
  induction reads as [| r reads IH]; intros c c' out st Hrun Hmin Hmax.
  - cbn in Hrun. injection Hrun as <- <- <-. exists [], []. cbn.
    split; [lia |]. split; [reflexivity | constructor].
  - cbn [length] in Hmax. rewrite Nat2Z.inj_succ in Hmax.
    rewrite bench_loop_cons in Hrun. destruct r as [now |].
    + destruct (iteration start (Frame now) c) as [[c1 out1] st1] eqn:Hit.
      assert (Hstep : total_frames c1 = total_frames c + 1
                      /\ match st1 with
                         | Running => seconds (now - start) < test_duration_sec
                         | Done => test_duration_sec <= seconds (now - start)
                         | Failed => False
                         end).
      { unfold iteration in Hit. rewrite (incr_small (total_frames c)) in Hit by lia.
        destruct (1 <=? seconds (now - last_report c));
          destruct (Z.leb_spec test_duration_sec (seconds (now - start))) as [Hd | Hd];
          injection Hit as <- <- <-; split; (reflexivity || exact Hd). }
      destruct Hstep as [Htot Hst1]. destruct st1.
      * destruct (bench_loop start reads c1) as [[c2 out2] st2] eqn:Hl.
        injection Hrun as <- <- <-.
        destruct (IH _ _ _ _ Hl) as (times & rest & Ht & Hshape); [lia | lia |].
        exists (now :: times), rest. cbn [length map]. rewrite Nat2Z.inj_succ.
        split; [lia |]. destruct st2.
        -- destruct Hshape as [-> Hall]. split; [reflexivity | now constructor].
        -- destruct Hshape as [-> (earlier & last & -> & Hall & Hlast)].
           split; [reflexivity |]. exists (now :: earlier), last.
           split; [reflexivity |]. split; [now constructor | exact Hlast].
        -- destruct Hshape as [-> Hall]. split; [reflexivity | now constructor].
      * injection Hrun as <- <- <-. exists [now], reads. cbn [length map Z.of_nat].
        split; [lia |]. split; [reflexivity |].
        exists [], now. split; [reflexivity |]. split; [constructor | exact Hst1].
      * contradiction.
    + cbn in Hrun. injection Hrun as <- <- <-. exists [], reads. cbn.
      split; [lia |]. split; [reflexivity | constructor].
Qed.

End LoopConsumed.

(** X18: however the loop ends, its running total is the number of frames
    it has read, and these are exactly: all the reads, each within the test
    duration, while it is still running; the reads before the failed one,
    each within the test duration, when a read failed; and, when it
    completed, the frames within the test duration followed by the one
    frame that came 5 whole seconds or more after the start, which is
    counted too. *)
Theorem total_counts_frames_read :
  forall start reads c out st,
    bench_loop start reads (init_counters start) = (c, out, st) ->
    Z.of_nat (length reads) <= INT_MAX ->
    exists times rest,
      total_frames c = Z.of_nat (length times)
      /\ match st with
         | Running =>
             reads = map Frame times
             /\ Forall (fun t => seconds (t - start) < test_duration_sec) times
         | Failed =>
             reads = map Frame times ++ NoFrame :: rest
             /\ Forall (fun t => seconds (t - start) < test_duration_sec) times
         | Done =>
             reads = map Frame times ++ rest
             /\ exists earlier now,
                 times = earlier ++ [now]
                 /\ Forall (fun t => seconds (t - start) < test_duration_sec) earlier
                 /\ test_duration_sec <= seconds (now - start)
         end.
Proof.
  intros start reads c out st Hrun Hlen.
  destruct (bench_loop_consumed _ _ _ _ _ _ Hrun) as (times & rest & Ht & Hshape);
    cbn [init_counters total_frames]; [unfold INT_MIN; lia | lia |].
  exists times, rest. cbn [init_counters total_frames] in Ht. split; [lia | exact Hshape].
Qed.

Lemma total_counts_frames_read_witness :
  exists times rest,
    3 = Z.of_nat (length times)
    /\ ([Frame 100; Frame 200; Frame 5000000000; Frame 5000000300]
        = map Frame times ++ rest
        /\ exists earlier now,
            times = earlier ++ [now]
            /\ Forall (fun t => seconds (t - 0) < test_duration_sec) earlier
            /\ test_duration_sec <= seconds (now - 0)).
Proof.
  apply (total_counts_frames_read 0
           [Frame 100; Frame 200; Frame 5000000000; Frame 5000000300]
           {| total_frames := 3; frames_last_second := 0; last_report := 5000000000 |}
           [CurrentFPS 3; Captured 3 5 (PrimFloat.div (double_of_Z 3) (double_of_Z 5))]
           Done).
  - reflexivity.
  - cbn. unfold INT_MAX. lia.
Defined.

(* ===================================================================== *)
(** * The resolution decoder against the shape to the letter *)
(* ===================================================================== *)

Section ExactShape.

Implicit Types (s lit rest : string) (v w h f : Z).

Lemma in_int_iff v : in_int v = true <-> INT_MIN <= v <= INT_MAX.
Proof.
  unfold in_int. rewrite andb_true_iff, !Z.leb_le. tauto.
Qed.

(** An integer literal starts with a sign or a digit, no white space. *)
Lemma literal_head lit v :
  int_literal lit v -> exists c r, lit = String c r /\ isspace c = false.
Proof.
  intros [ds Hds | ds Hds | ds Hds]; try (eexists _, _; split; reflexivity).
  destruct (is_digits_head _ Hds) as (c & r & -> & Hc).
  exists c, r. split; [reflexivity | now apply digit_not_space].
Qed.

Lemma leading_literal_iff s v rest :
  leading_literal s = Some (v, rest)
  <-> exists lit, s = (lit ++ rest)%string /\ int_literal lit v /\ next_not_digit rest.
Proof.
  split.
  - unfold leading_literal. destruct s as [| c r]; [discriminate |].
    destruct (isspace c) eqn:Hc; [discriminate |]. intros H.
    apply scan_int_iff in H as (ws & lit & Heq & Hws & Hlit & Hrest).
    destruct ws as [| c' ws'].
    + rewrite append_nil_l in Heq. exists lit. auto.
    + rewrite append_cons in Heq. injection Heq as -> _.
      cbn in Hws. rewrite Hc in Hws. discriminate.
  - intros (lit & -> & Hlit & Hrest).
    destruct (literal_head _ _ Hlit) as (c & r & Heq & Hc).
    unfold leading_literal. rewrite Heq at 1. rewrite append_cons, Hc.
    apply scan_int_iff.
    exists EmptyString, lit. rewrite append_nil_l. auto.
Qed.

(** The recogniser decides the shape to the letter. *)
Lemma exact_shapeb_iff s :
  exact_shapeb s = true <-> exists w h f, exact_shape s w h f.
Proof.
  unfold exact_shapeb. split.
  - destruct (leading_literal s) as [[w [| c1 r1]] |] eqn:E1; try discriminate.
    destruct (leading_literal r1) as [[h [| c2 r2]] |] eqn:E2; try discriminate.
    destruct (leading_literal r2) as [[f [| c3 r3]] |] eqn:E3; try discriminate.
    rewrite !andb_true_iff, !in_int_iff.
    intros ((((Hx & Ha) & Hw) & Hh) & Hf).
    apply Ascii.eqb_eq in Hx, Ha. subst c1 c2.
    apply leading_literal_iff in E1 as (lw & -> & Hlw & _).
    apply leading_literal_iff in E2 as (lh & -> & Hlh & _).
    apply leading_literal_iff in E3 as (lf & -> & Hlf & _).
    exists w, h, f, lw, lh, lf. rewrite append_nil_r. repeat split; auto; lia.
  - intros (w & h & f & lw & lh & lf & -> & Hlw & Hw & Hlh & Hh & Hlf & Hf).
    assert (E1 : leading_literal (lw ++ String "x" (lh ++ String "@" lf))
                 = Some (w, String "x" (lh ++ String "@" lf)%string))
      by (apply leading_literal_iff; exists lw; repeat split; auto).
    assert (E2 : leading_literal (lh ++ String "@" lf) = Some (h, String "@" lf))
      by (apply leading_literal_iff; exists lh; repeat split; auto).
    assert (E3 : leading_literal lf = Some (f, EmptyString))
      by (apply leading_literal_iff; exists lf; rewrite append_nil_r; repeat split; auto).
    rewrite E1, E2, E3.
    rewrite !andb_true_iff, !in_int_iff. repeat split; auto; lia.
Qed.

(** A string of the shape to the letter has the shape the stream reads. *)
Lemma exact_shape_stream s w h f :
  exact_shape s w h f -> resolution_shape s w h f.
Proof.
  intros (lw & lh & lf & -> & Hlw & Hw & Hlh & Hh & Hlf & Hf).
  exists (String "x" (lh ++ String "@" lf))%string, (lh ++ String "@" lf)%string,
    (String "@" lf), lf, EmptyString.
  split; [exists EmptyString, lw; rewrite append_nil_l; repeat split; auto; lia |].
  split; [exists EmptyString; now rewrite append_nil_l |].
  split; [exists EmptyString, lh; rewrite append_nil_l; repeat split; auto; lia |].
  split; [exists EmptyString; now rewrite append_nil_l |].
  exists EmptyString, lf. rewrite append_nil_l, append_nil_r. repeat split; auto; lia.
Qed.

End ExactShape.

(** C2, as the specification states it, fails: the decoder succeeds on
    strings that are not of the shape [<int>x<int>@<int>]: text may follow
    the third integer, and white space may come before every field. *)
Lemma decoder_accepts_more_than_the_shape :
  parseResolution "640x480@60fps" (640, 480, 30) = (true, (640, 480, 60))
  /\ exact_shapeb "640x480@60fps" = false
  /\ parseResolution " 640 x 480 @ 60" (640, 480, 30) = (true, (640, 480, 60))
  /\ exact_shapeb " 640 x 480 @ 60" = false.
Proof. repeat split; reflexivity. Qed.

(** C2, amended: the decoder succeeds exactly on the strings that begin,
    as a stream reads them, with [<int>x<int>@<int>]: white space before
    each integer and each separator is skipped and what follows the third
    integer is ignored. That is: it succeeds exactly when the two
    separator characters read are literally [x] and [@] and the three
    integers parse and fit an [int], and it then hands back exactly those
    three integers. Every string that is [<int>x<int>@<int>] to the letter
    is accepted with its three integers, in particular the decimal text of
    any three [int] values. When the decoder fails [main] prints the error
    and exits with code 1, and its events hold no call on the capture
    device. *)
Theorem resolution_decoder :
  (forall s init w h f,
      parseResolution s init = (true, (w, h, f)) <-> resolution_shape s w h f)
  /\ (forall s init,
        fst (parseResolution s init) = true <-> exists w h f, resolution_shape s w h f)
  /\ (forall s init w h f,
        exact_shape s w h f -> parseResolution s init = (true, (w, h, f)))
  /\ (forall w h f init,
        INT_MIN <= w <= INT_MAX ->
        INT_MIN <= h <= INT_MAX ->
        INT_MIN <= f <= INT_MAX ->
        parseResolution
          (show_int w ++ String "x" (show_int h ++ String "@" (show_int f)))%string init
        = (true, (w, h, f)))
  /\ (forall e argv args device res,
        parseArgs argv = Parsed args ->
        args !! "help"%string = None ->
        device_of (default "0"%string (args !! "device"%string)) = StoiOk device ->
        args !! "resolution"%string = Some res ->
        fst (parseResolution res (640, 480, 30)) = false ->
        main e argv = ([InvalidResolution], Exit 1)).
Proof.
  split; [| split; [| split; [| split]]].
  - apply parseResolution_iff.
  - intros s init. split.
    + destruct (parseResolution s init) as [ok [[w h] f]] eqn:E. cbn [fst].
      intros ->. exists w, h, f. now apply (parseResolution_iff s init).
    + intros (w & h & f & Hshape).
      apply (parseResolution_iff s init) in Hshape. now rewrite Hshape.
  - intros s init w h f Hexact. apply parseResolution_iff.
    now apply exact_shape_stream.
  - intros w h f init Hw Hh Hf. apply parseResolution_iff, exact_shape_stream.
    exists (show_int w), (show_int h), (show_int f).
    repeat split; try apply show_int_literal; lia.
  - intros e argv args device res Hp Hh Hdev Hres Hfail.
    unfold main. rewrite Hp.
    rewrite bool_decide_eq_false_2 by (rewrite Hh; apply is_Some_None).
    cbv zeta. rewrite Hdev, Hres.
    destruct (parseResolution res (640, 480, 30)) as [ok [[w h] f]].
    cbn [fst] in Hfail. subst ok. reflexivity.
Qed.

Lemma resolution_decoder_witness :
  parseResolution "1280x720@60" (640, 480, 30) = (true, (1280, 720, 60))
  /\ main {| opens := fun _ => true; start_time := 0; reads := [Frame 1] |}
          ["camtest"; "-r"; "800y600@30"]%string
     = ([InvalidResolution], Exit 1).
Proof.
  split.
  - apply (proj1 (proj2 (proj2 resolution_decoder))).
    exists "1280"%string, "720"%string, "60"%string.
    split; [reflexivity |].
    split; [apply (literal_plain "1280"); split; [discriminate | reflexivity] |].
    split; [unfold INT_MIN, INT_MAX; lia |].
    split; [apply (literal_plain "720"); split; [discriminate | reflexivity] |].
    split; [unfold INT_MIN, INT_MAX; lia |].
    split; [apply (literal_plain "60"); split; [discriminate | reflexivity] |].
    unfold INT_MIN, INT_MAX; lia.
  - apply (proj2 (proj2 (proj2 (proj2 resolution_decoder))) _ _
             (<["resolution"%string := "800y600@30"%string]> ∅) 0 "800y600@30"%string).
    + reflexivity.
    + now rewrite lookup_insert_ne.
    + rewrite lookup_insert_ne by done. reflexivity.
    + now rewrite lookup_insert_eq.
    + reflexivity.
Defined.
